(** * Support utilities of the sound-event-detection baseline

    A shallow embedding of [baseline/utilities/utils.py]: the label
    encoder [ManyHotEncoder], the training callbacks [SaveBest] and
    [EarlyStopping], and the running statistics [AverageMeter] and
    [AverageMeterSet], followed by the properties proved about them.

    Numbers.  Python floats are modelled by exact rationals ([Q]); rounding
    is not modelled.  Python ints are [Z].  [np.inf] is a separate point
    above every rational. *)

From Stdlib Require Import ZArith QArith Qround Lia Lqa List String Ascii Bool.
From stdpp Require Import base option list strings gmap.

Local Open Scope string_scope.
Local Open Scope Z_scope.

(** ** Python outcomes *)

(** The types of the Python objects that the encoders may be handed. *)
Inductive pytype :=
  | TStr | TDataFrame | TSeries | TList | TNdarray
  | TTuple | TInt | TFloat | TNoneType | TDict.

(** The exceptions raised by the modelled code.  [NotImplementedError]
    carries the type that its message names. *)
Inductive exn :=
  | AssertionError
  | ValueError
  | TypeError
  | ZeroDivisionError
  | KeyError
  | IndexError
  | NotImplementedError (given : option pytype).

Inductive result (A : Type) :=
  | Ok (a : A)
  | Raise (e : exn).
Arguments Ok {A} a.
Arguments Raise {A} e.

Definition bind {A B} (r : result A) (k : A -> result B) : result B :=
  match r with
  | Ok a => k a
  | Raise e => Raise e
  end.

Notation "x <- r ;; k" := (bind r (fun x => k))
  (at level 100, r at next level, right associativity).

(** ** Comparisons on metric values *)

(** A best value is a rational or [np.inf]. *)
Inductive best :=
  | Fin (q : Q)
  | Inf.

Definition Qltb (x y : Q) : bool := negb (Qle_bool y x).

(** [value < best_val] *)
Definition lt_best (value : Q) (b : best) : bool :=
  match b with
  | Fin q => Qltb value q
  | Inf => true
  end.

(** [value > best_val] *)
Definition gt_best (value : Q) (b : best) : bool :=
  match b with
  | Fin q => Qltb q value
  | Inf => false
  end.

(** ** SaveBest *)

Module SaveBest.

Record t := mk {
  comp : string;
  best_val : best;
  best_epoch : Z;
  current_epoch : Z
}.

(** [__init__(self, val_comp="inf")] *)
Definition init (val_comp : string) : result t :=
  if String.eqb val_comp "inf" then
    Ok (mk val_comp Inf 0 0)
  else if String.eqb val_comp "sup" then
    Ok (mk val_comp (Fin 0) 0 0)
  else Raise (NotImplementedError None).

(** [apply(self, value)]: the decision and the state left behind. *)
Definition apply (self : t) (value : Q) : bool * t :=
  let decision := false in
  let decision := if current_epoch self =? 0 then true else decision in
  let '(decision, self) :=
    if (String.eqb (comp self) "inf" && lt_best value (best_val self))
       || (String.eqb (comp self) "sup" && gt_best value (best_val self))
    then (true, mk (comp self) (Fin value) (current_epoch self) (current_epoch self))
    else (decision, self) in
  (decision,
   mk (comp self) (best_val self) (best_epoch self) (current_epoch self + 1)).

(** Successive calls of [apply], collecting the decisions. *)
Fixpoint run (self : t) (values : list Q) : list bool * t :=
  match values with
  | [] => ([], self)
  | v :: vs =>
      let '(d, self) := apply self v in
      let '(ds, self) := run self vs in
      (d :: ds, self)
  end.

End SaveBest.

(** ** EarlyStopping *)

Module EarlyStopping.

Record t := mk {
  patience : Z;
  first_early_wait : Z;
  val_comp : string;
  best_val : best;
  current_epoch : Z;
  best_epoch : Z
}.

(** [__init__(self, patience, val_comp="inf", init_patience=0)] *)
Definition init (patience : Z) (val_comp : string) (init_patience : Z)
  : result t :=
  if String.eqb val_comp "inf" then
    Ok (mk patience init_patience val_comp Inf 0 0)
  else if String.eqb val_comp "sup" then
    Ok (mk patience init_patience val_comp (Fin 0) 0 0)
  else Raise (NotImplementedError None).

(** The test made at the head of [apply]: does [value] beat the best. *)
Definition improves (self : t) (value : Q) : bool :=
  let current := false in
  let current :=
    if String.eqb (val_comp self) "inf" then
      if lt_best value (best_val self) then true else current
    else current in
  let current :=
    if String.eqb (val_comp self) "sup" then
      if gt_best value (best_val self) then true else current
    else current in
  current.

Definition set_current_epoch (self : t) (e : Z) : t :=
  mk (patience self) (first_early_wait self) (val_comp self)
     (best_val self) e (best_epoch self).

(** [apply(self, value)]: the stop signal and the state left behind. *)
Definition apply (self : t) (value : Q) : bool * t :=
  if improves self value then
    let self :=
      mk (patience self) (first_early_wait self) (val_comp self)
         (Fin value) (current_epoch self) (current_epoch self) in
    (false, set_current_epoch self (current_epoch self + 1))
  else if (patience self <? current_epoch self - best_epoch self)
          && (first_early_wait self <? current_epoch self) then
    (true, set_current_epoch self 0)
  else
    (false, set_current_epoch self (current_epoch self + 1)).

Fixpoint run (self : t) (values : list Q) : list bool * t :=
  match values with
  | [] => ([], self)
  | v :: vs =>
      let '(d, self) := apply self v in
      let '(ds, self) := run self vs in
      (d :: ds, self)
  end.

End EarlyStopping.

(** ** AverageMeter *)

(** What a call that mutates an object leaves behind: the object, and
    whether the call returned or raised. *)
Inductive outcome :=
  | Returned
  | Raised (e : exn).

Module AverageMeter.

Record t := mk {
  val : Q;
  avg : Q;
  sum : Q;
  count : Z
}.

(** [reset(self)] *)
Definition reset (self : t) : t := mk 0 0 0 0.

(** [__init__(self)] *)
Definition init : t := reset (mk 0 0 0 0).

(** [update(self, val, n=1)].  The first three assignments are made
    before the division is attempted. *)
Definition update (self : t) (v : Q) (n : Z) : t * outcome :=
  let sum' := (sum self + v * inject_Z n)%Q in
  let count' := count self + n in
  if count' =? 0 then
    (mk v (avg self) sum' count', Raised ZeroDivisionError)
  else
    (mk v (sum' / inject_Z count')%Q sum' count', Returned).

End AverageMeter.

(** ** AverageMeterSet *)

Module AverageMeterSet.

Record t := mk { meters : gmap string AverageMeter.t }.

(** [__init__(self)] *)
Definition init : t := mk ∅.

(** [update(self, name, value, n=1)] *)
Definition update (self : t) (name : string) (value : Q) (n : Z)
  : t * outcome :=
  let ms :=
    match meters self !! name with
    | None => <[name := AverageMeter.init]> (meters self)
    | Some _ => meters self
    end in
  match ms !! name with
  | Some m =>
      let '(m', o) := AverageMeter.update m value n in
      (mk (<[name := m']> ms), o)
  | None => (mk ms, Raised KeyError)
  end.

(** [reset(self)]: every stored meter is reset in place. *)
Definition reset (self : t) : t := mk (AverageMeter.reset <$> meters self).

(** [__getitem__(self, key)] *)
Definition getitem (self : t) (key : string) : result AverageMeter.t :=
  match meters self !! key with
  | Some m => Ok m
  | None => Raise KeyError
  end.

(** The dictionary comprehension shared by [values], [averages],
    [sums] and [counts]: [{name + postfix: view(meter) ...}]. *)
Definition view {A} (f : AverageMeter.t -> A) (self : t) (postfix : string)
  : gmap string A :=
  list_to_map
    ((fun '(name, meter) => (name ++ postfix, f meter))
       <$> map_to_list (meters self)).

Definition values := view AverageMeter.val.
Definition averages := view AverageMeter.avg.
Definition sums := view AverageMeter.sum.
Definition counts := view AverageMeter.count.

End AverageMeterSet.

(** ** Values met by the encoders *)

(** A cell of a table or an entry of a label collection: missing
    ([NaN], [None]), a string, or a number. *)
Inductive scalar :=
  | SNa
  | SStr (s : string)
  | SInt (z : Z)
  | SFloat (q : Q).

(** The onset and offset fields of an event are numeric. *)
Inductive num :=
  | NInt (z : Z)
  | NFloat (q : Q)
  | NNan.

(** [pd.isna(x)] on a scalar. *)
Definition isna (x : scalar) : bool :=
  match x with
  | SNa => true
  | _ => false
  end.

(** [int(x)]: truncation towards zero; [NaN] cannot be converted. *)
Definition int_of (x : num) : result Z :=
  match x with
  | NInt z => Ok z
  | NFloat q => Ok (Z.quot (Qnum q) (Zpos (Qden q)))
  | NNan => Raise ValueError
  end.

(** [labels.index(x)] on a list of strings: the first position holding
    [x]; [ValueError] when there is none. *)
Fixpoint index_of (s : string) (labels : list string) : option nat :=
  match labels with
  | [] => None
  | l :: rest => if String.eqb l s then Some O else S <$> index_of s rest
  end.

Definition index (labels : list string) (x : scalar) : result nat :=
  match x with
  | SStr s =>
      match index_of s labels with
      | Some i => Ok i
      | None => Raise ValueError
      end
  | _ => Raise ValueError
  end.

(** [x is not ""].  The empty string is a single object in CPython, so
    the identity test singles out exactly the empty strings. *)
Definition is_not_empty_str (x : scalar) : bool :=
  match x with
  | SStr "" => false
  | _ => true
  end.

(** One row of a table, as far as the encoders read it: the cells under
    [event_label], [onset] and [offset].  The cell of a column that the
    table does not have is never read. *)
Record event_row := mk_row {
  event_label : scalar;
  onset : num;
  offset : num
}.

Record DataFrame := mk_frame {
  columns : list string;
  rows : list event_row
}.

(** [df.empty]: some axis has length zero. *)
Definition empty (df : DataFrame) : bool :=
  match columns df, rows df with
  | [], _ | _, [] => true
  | _, _ => false
  end.

Definition has_column (name : string) (df : DataFrame) : bool :=
  existsb (String.eqb name) (columns df).

(** [{"onset", "offset", "event_label"}.issubset(names)] *)
Definition event_keys_in (names : list string) : bool :=
  forallb (fun k => existsb (String.eqb k) names)
          ["onset"; "offset"; "event_label"].

(** An element of a list handed to the strong encoder. *)
Inductive item :=
  | ILabel (s : string)                 (* a [str] *)
  | ITriple (label : scalar) (onset offset : num)
                                        (* a sequence of length 3 *)
  | ISized (t : pytype)                 (* length other than 3, type [t] *)
  | IUnsized (t : pytype).              (* no [len], type [t] *)

(** A Series: its index, the cells read when the index holds the event
    keys, and the values met when it is iterated. *)
Record Series := mk_series {
  s_index : list string;
  s_row : event_row;
  s_values : list item
}.

Inductive pyobj :=
  | PStr (s : string)
  | PDataFrame (df : DataFrame)
  | PSeries (sr : Series)
  | PList (l : list item)
  | PNdarray (l : list item)
  | PTuple (l : list item)
  | PInt (z : Z)
  | PFloat (q : Q)
  | PNone
  | PDict.

(** [type(x)] *)
Definition type_of (x : pyobj) : pytype :=
  match x with
  | PStr _ => TStr
  | PDataFrame _ => TDataFrame
  | PSeries _ => TSeries
  | PList _ => TList
  | PNdarray _ => TNdarray
  | PTuple _ => TTuple
  | PInt _ => TInt
  | PFloat _ => TFloat
  | PNone => TNoneType
  | PDict => TDict
  end.

(** ** Arrays *)

(** A two-dimensional array: its shape and its rows. *)
Record ndarray := mk_array {
  n_rows : nat;
  n_cols : nat;
  cells : list (list Q)
}.

(** [np.zeros((n, k)) + c] *)
Definition np_full (n k : nat) (c : Q) : ndarray :=
  mk_array n k (replicate n (replicate k c)).

Definition np_zeros (n k : nat) : ndarray := np_full n k 0%Q.

(** A slice bound brought into [0, n], as slicing does for step 1. *)
Definition adjust (n : nat) (x : Z) : nat :=
  let len := Z.of_nat n in
  let x := if x <? 0 then x + len else x in
  if x <? 0 then O
  else if len <=? x then n
  else Z.to_nat x.

(** [y[start:stop, i] = 1] with bounds already adjusted. *)
Definition set_rows (y : ndarray) (start stop i : nat) : ndarray :=
  mk_array (n_rows y) (n_cols y)
    (imap (fun r row =>
             if (start <=? r)%nat && (r <? stop)%nat
             then <[i := 1%Q]> row else row)
          (cells y)).

(** [y[onset:offset, i] = 1] *)
Definition assign_slice (y : ndarray) (onset offset : Z) (i : nat) : ndarray :=
  set_rows y (adjust (n_rows y) onset) (adjust (n_rows y) offset) i.

(** [y[:, i] = 1] *)
Definition assign_column (y : ndarray) (i : nat) : ndarray :=
  set_rows y O (n_rows y) i.

(** [labels.T]: the list of columns. *)
Definition transpose (y : ndarray) : list (list Q) :=
  (fun j => (fun row => nth j row 0%Q) <$> cells y) <$> seq 0 (n_cols y).

(** ** Contiguous regions *)

(** Modelled from the spec: the activity test of
    [DecisionEncoder.find_contiguous_regions], which belongs to the
    [dcase_util] package and is not part of this repository's sources.
    The spec takes the active frames to be those of value 1. *)
Definition active (x : Q) : bool := Qeq_bool x 1.

(** Modelled from the spec: the boundary scan of
    [DecisionEncoder.find_contiguous_regions], absent from the sources.
    The spec has it compare each frame to its predecessor and open or
    close a run on each transition.  [scan open k column]: [k] is the
    index of the head of [column]; [open] holds the start of the run the
    predecessor frame is in. *)
Fixpoint scan (open : option nat) (k : nat) (column : list Q)
  : list (nat * nat) :=
  match column with
  | [] =>
      match open with
      | Some start => [(start, k)]
      | None => []
      end
  | x :: rest =>
      match open, active x with
      | Some start, true => scan (Some start) (S k) rest
      | Some start, false => (start, k) :: scan None (S k) rest
      | None, true => scan (Some k) (S k) rest
      | None, false => scan None (S k) rest
      end
  end.

(** Modelled from the spec: [DecisionEncoder.find_contiguous_regions],
    absent from the sources.  The spec describes it as finding, in one
    label column, the maximal contiguous runs of active frames, each
    reported as (run_start, run_end) with the end exclusive. *)
Definition find_contiguous_regions (activity_array : list Q)
  : list (nat * nat) :=
  scan None O activity_array.

(** ** ManyHotEncoder *)

(** What [encode_weak] is handed: a string, a table, or a collection of
    entries (a list, a Series or an array of labels). *)
Inductive weak_input :=
  | WStr (s : string)
  | WFrame (df : DataFrame)
  | WList (entries : list scalar).

(** An event as [decode_strong] reports it: [[label, onset, offset]]. *)
Definition event : Type := string * nat * nat.

Module ManyHotEncoder.

Record t := mk {
  labels : list string;
  n_frames : option Z
}.

(** The loop of [encode_weak] over the entries. *)
Fixpoint encode_weak_loop (self : t) (entries : list scalar) (y : list Q)
  : result (list Q) :=
  match entries with
  | [] => Ok y
  | label :: rest =>
      if negb (isna label) then
        i <- index (labels self) label ;;
        encode_weak_loop self rest (<[i := 1%Q]> y)
      else encode_weak_loop self rest y
  end.

(** What the loop of [encode_weak] iterates over, once the table case
    has been resolved.  Iterating a string yields its characters;
    iterating a table yields its column names. *)
Definition weak_entries (x : weak_input) : list scalar :=
  match x with
  | WStr s => (fun c => SStr (String c "")) <$> list_ascii_of_string s
  | WFrame df =>
      if empty df then []
      else if has_column "event_label" df then event_label <$> rows df
      else SStr <$> columns df
  | WList entries => entries
  end.

(** [type(labels) is str] and [labels == "empty"] *)
Definition weak_sentinel (x : weak_input) : bool :=
  match x with
  | WStr s => String.eqb s "empty"
  | _ => false
  end.

(** [encode_weak(self, labels)] *)
Definition encode_weak (self : t) (x : weak_input) : result (list Q) :=
  if weak_sentinel x then
    Ok (replicate (length (labels self)) (0 - 1)%Q)
  else
    encode_weak_loop self (weak_entries x)
                     (replicate (length (labels self)) 0%Q).

(** The loop of [encode_strong_df] over the rows of a table. *)
Fixpoint encode_rows (self : t) (rs : list event_row) (y : ndarray)
  : result ndarray :=
  match rs with
  | [] => Ok y
  | row :: rest =>
      if negb (isna (event_label row)) then
        i <- index (labels self) (event_label row) ;;
        onset <- int_of (onset row) ;;
        offset <- int_of (offset row) ;;
        encode_rows self rest (assign_slice y onset offset i)
      else encode_rows self rest y
  end.

(** The loop of [encode_strong_df] over the elements of a sequence. *)
Fixpoint encode_items (self : t) (items : list item) (y : ndarray)
  : result ndarray :=
  match items with
  | [] => Ok y
  | event_label :: rest =>
      match event_label with
      | ILabel s =>
          if is_not_empty_str (SStr s) then
            i <- index (labels self) (SStr s) ;;
            encode_items self rest (assign_column y i)
          else encode_items self rest y
      | ITriple label onset offset =>
          if is_not_empty_str label then
            i <- index (labels self) label ;;
            onset <- int_of onset ;;
            offset <- int_of offset ;;
            encode_items self rest (assign_slice y onset offset i)
          else encode_items self rest y
      | ISized t => Raise (NotImplementedError (Some t))
      | IUnsized _ => Raise TypeError
      end
  end.

(** [np.zeros((self.n_frames, len(self.labels)))]: a negative dimension
    is refused. *)
Definition zeros (self : t) (n : Z) : result ndarray :=
  if n <? 0 then Raise ValueError
  else Ok (np_zeros (Z.to_nat n) (length (labels self))).

(** [type(label_df) is str] and [label_df == 'empty'] *)
Definition strong_sentinel (x : pyobj) : bool :=
  match x with
  | PStr s => String.eqb s "empty"
  | _ => false
  end.

(** [encode_strong_df(self, label_df)] *)
Definition encode_strong_df (self : t) (label_df : pyobj) : result ndarray :=
  match n_frames self with
  | None => Raise AssertionError
  | Some n =>
      if strong_sentinel label_df then
        y <- zeros self n ;;
        Ok (np_full (n_rows y) (n_cols y) (0 - 1)%Q)
      else
        y <- zeros self n ;;
        match label_df with
        | PDataFrame df =>
            if event_keys_in (columns df)
            then encode_rows self (rows df) y
            else Ok y
        | PSeries sr =>
            if event_keys_in (s_index sr)
            then encode_rows self [s_row sr] y
            else encode_items self (s_values sr) y
        | PList l | PNdarray l => encode_items self l y
        | _ => Raise (NotImplementedError (Some (type_of label_df)))
        end
  end.

(** The loop of [decode_weak], with the position reached in
    [enumerate(labels)]. *)
Fixpoint decode_weak_loop (self : t) (i : nat) (values : list Q)
         (result_labels : list string) : result (list string) :=
  match values with
  | [] => Ok result_labels
  | value :: rest =>
      if Qeq_bool value 1 then
        match labels self !! i with
        | Some l => decode_weak_loop self (S i) rest (result_labels ++ [l])
        | None => Raise IndexError
        end
      else decode_weak_loop self (S i) rest result_labels
  end.

(** [decode_weak(self, labels)] *)
Definition decode_weak (self : t) (v : list Q) : result (list string) :=
  decode_weak_loop self O v [].

(** The inner loop of [decode_strong] over the regions of column [i]. *)
Fixpoint decode_regions (self : t) (i : nat) (change_indices : list (nat * nat))
         (result_labels : list event) : result (list event) :=
  match change_indices with
  | [] => Ok result_labels
  | row :: rest =>
      match labels self !! i with
      | Some l =>
          decode_regions self i rest (result_labels ++ [(l, row.1, row.2)])
      | None => Raise IndexError
      end
  end.

(** The outer loop of [decode_strong] over [enumerate(labels.T)]. *)
Fixpoint decode_columns (self : t) (i : nat) (cols : list (list Q))
         (result_labels : list event) : result (list event) :=
  match cols with
  | [] => Ok result_labels
  | label_column :: rest =>
      let change_indices := find_contiguous_regions label_column in
      result_labels <- decode_regions self i change_indices result_labels ;;
      decode_columns self (S i) rest result_labels
  end.

(** [decode_strong(self, labels)] *)
Definition decode_strong (self : t) (y : ndarray) : result (list event) :=
  decode_columns self O (transpose y) [].

(** The decoded events as the Python list of lists handed back to the
    encoder. *)
Definition as_items (events : list event) : list item :=
  (fun '(l, s, e) => ITriple (SStr l) (NInt (Z.of_nat s)) (NInt (Z.of_nat e)))
    <$> events.

End ManyHotEncoder.

(** ** Notions used to state the properties *)

(** The subsequence of the vocabulary whose vector entry equals 1. *)
Fixpoint selected (labels : list string) (v : list Q) : list string :=
  match labels, v with
  | l :: ls, x :: xs =>
      if Qeq_bool x 1 then l :: selected ls xs else selected ls xs
  | _, _ => []
  end.

(** An entry of a weak-label collection that the encoder can place:
    missing, or a label of the vocabulary. *)
Definition placeable (labels : list string) (x : scalar) : bool :=
  match x with
  | SNa => true
  | SStr s => bool_decide (s ∈ labels)
  | _ => false
  end.

Definition zero_or_one (q : Q) : Prop := q = 0%Q \/ q = 1%Q.

(** The entry at frame [r] and column [c]; 0 outside the array. *)
Definition get (y : ndarray) (r c : nat) : Q :=
  nth c (nth r (cells y) []) 0%Q.

(** The array has the shape it announces. *)
Definition well_shaped (y : ndarray) : Prop :=
  length (cells y) = n_rows y /\
  Forall (fun row => length row = n_cols y) (cells y).

(** What the encoding loops preserve: the announced shape, the width
    of every row, and entries that are 0 or 1. *)
Definition binary (y : ndarray) : Prop :=
  well_shaped y /\ Forall (Forall zero_or_one) (cells y).

(** Frame [r] of a column is active. *)
Definition act (column : list Q) (r : nat) : bool :=
  match column !! r with
  | Some x => active x
  | None => false
  end.

(** [s, e) is a maximal run of active frames of the column. *)
Definition maximal_run (column : list Q) (s e : nat) : Prop :=
  (s < e)%nat /\
  (forall r, (s <= r < e)%nat -> act column r = true) /\
  (forall r, S r = s -> act column r = false) /\
  act column e = false.

(** The column begins with exactly [e] active frames. *)
Definition leading_run (column : list Q) (e : nat) : Prop :=
  (forall r, (r < e)%nat -> act column r = true) /\
  act column e = false.

(** Frame [r] of column [c] lies inside one of the events, the column
    of an event being the first position of its label. *)
Definition covers (labels : list string) (c r : nat) (ev : event) : bool :=
  let '(l, s, e) := ev in
  bool_decide (index_of l labels = Some c) && (s <=? r)%nat && (r <? e)%nat.

Definition covered (labels : list string) (events : list event) (r c : nat)
  : bool :=
  existsb (covers labels c r) events.

(** Two events with the same label are the same event, or are separated
    by at least one frame: they neither overlap nor touch. *)
Definition separated (events : list event) : Prop :=
  forall l s1 e1 s2 e2,
    (l, s1, e1) ∈ events -> (l, s2, e2) ∈ events ->
    (s1 = s2 /\ e1 = e2) \/ (e1 < s2)%nat \/ (e2 < s1)%nat.

(** An event that the strong encoder places whole: its label is a
    non-empty label of the vocabulary and it ends within the frames. *)
Definition placed (labels : list string) (n : nat) (ev : event) : Prop :=
  let '(l, s, e) := ev in
  l <> "" /\ (exists c, index_of l labels = Some c) /\ (e <= n)%nat.

(** An element of a sequence that the strong encoder accepts. *)
Definition accepted_item (labels : list string) (n : Z) (it : item) : bool :=
  match it with
  | ILabel s => bool_decide (s ∈ labels)
  | ITriple (SStr l) (NInt o) (NInt f) =>
      bool_decide (l ∈ labels) && (0 <=? o) && (o <=? n) && (0 <=? f) && (f <=? n)
  | _ => false
  end.

(** A row of a table that the strong encoder accepts. *)
Definition accepted_row (labels : list string) (n : Z) (row : event_row) : bool :=
  match event_label row, onset row, offset row with
  | SStr l, NInt o, NInt f =>
      bool_decide (l ∈ labels) && (0 <=? o) && (o <=? n) && (0 <=? f) && (f <=? n)
  | _, _, _ => false
  end.

(** The inputs of the implicit contract of [encode_strong_df]: events
    with labels in the vocabulary and bounds within [0, n_frames]. *)
Definition accepted (labels : list string) (n : Z) (x : pyobj) : bool :=
  match x with
  | PDataFrame df =>
      event_keys_in (columns df) && forallb (accepted_row labels n) (rows df)
  | PSeries sr =>
      if event_keys_in (s_index sr) then accepted_row labels n (s_row sr)
      else forallb (accepted_item labels n) (s_values sr)
  | PList l | PNdarray l => forallb (accepted_item labels n) l
  | _ => false
  end.

(** The types that [encode_strong_df] dispatches on. *)
Definition dispatched (t : pytype) : bool :=
  match t with
  | TDataFrame | TSeries | TList | TNdarray => true
  | _ => false
  end.

(** The elements that [encode_strong_df] iterates over, when it does. *)
Definition iterated (x : pyobj) : option (list item) :=
  match x with
  | PList l | PNdarray l => Some l
  | PSeries sr => if event_keys_in (s_index sr) then None else Some (s_values sr)
  | _ => None
  end.

(** A table holding one event. *)
Definition one_event (l : string) (o f : Z) : pyobj :=
  PDataFrame (mk_frame ["onset"; "offset"; "event_label"]
                       [mk_row (SStr l) (NInt o) (NInt f)]).

(** Position [i] of the vocabulary is the first position of some label
    string among the entries. *)
Definition marked (labels : list string) (entries : list scalar) (i : nat)
  : bool :=
  existsb (fun e =>
             match e with
             | SStr s => bool_decide (index_of s labels = Some i)
             | _ => false
             end) entries.

(** Successive calls of [AverageMeter.update] on (value, weight) pairs,
    up to the first call that raises. *)
Fixpoint meter_updates (self : AverageMeter.t) (obs : list (Q * Z))
  : AverageMeter.t * outcome :=
  match obs with
  | [] => (self, Returned)
  | (v, n) :: rest =>
      match AverageMeter.update self v n with
      | (self, Returned) => meter_updates self rest
      | (self, Raised e) => (self, Raised e)
      end
  end.

(** The weighted sum and the total weight of a list of observations. *)
Fixpoint weighted_sum (obs : list (Q * Z)) : Q :=
  match obs with
  | [] => 0%Q
  | (v, n) :: rest => (v * inject_Z n + weighted_sum rest)%Q
  end.

Fixpoint total_weight (obs : list (Q * Z)) : Z :=
  match obs with
  | [] => 0
  | (_, n) :: rest => n + total_weight rest
  end.

(** [v] is the least of the values [vs], and [b] the first position
    that holds it. *)
Definition first_min (vs : list Q) (b : nat) (v : Q) : Prop :=
  vs !! b = Some v /\
  forall j w, vs !! j = Some w -> (v <= w)%Q /\ ((j < b)%nat -> (v < w)%Q).

(** [v] is the greatest of the values [vs], and [b] the first position
    that holds it. *)
Definition first_max (vs : list Q) (b : nat) (v : Q) : Prop :=
  vs !! b = Some v /\
  forall j w, vs !! j = Some w -> (w <= v)%Q /\ ((j < b)%nat -> (w < v)%Q).

(** What [SaveBest] in mode "inf" knows after the values [hist]: how many
    there were, and the first position of the least of them. *)
Definition SaveBest_inf_inv (st : SaveBest.t) (hist : list Q) : Prop :=
  SaveBest.comp st = "inf" /\
  SaveBest.current_epoch st = Z.of_nat (length hist) /\
  ((hist = [] /\ SaveBest.best_val st = Inf /\ SaveBest.best_epoch st = 0) \/
   (exists b v,
       SaveBest.best_epoch st = Z.of_nat b /\
       SaveBest.best_val st = Fin v /\
       first_min hist b v)).

(** What [SaveBest] in mode "sup" knows after the values [hist]: the
    first position of the greatest of them when it exceeds 0, and the
    initial 0 otherwise. *)
Definition SaveBest_sup_inv (st : SaveBest.t) (hist : list Q) : Prop :=
  SaveBest.comp st = "sup" /\
  SaveBest.current_epoch st = Z.of_nat (length hist) /\
  ((SaveBest.best_val st = Fin 0 /\ SaveBest.best_epoch st = 0 /\
    Forall (fun w => (w <= 0)%Q) hist) \/
   (exists b v,
       SaveBest.best_epoch st = Z.of_nat b /\
       SaveBest.best_val st = Fin v /\
       (0 < v)%Q /\
       first_max hist b v)).

(** ** Moving objects to the GPU *)

Section ToCuda.

(** The objects handed over, and their method [cuda()]. *)
Variable T : Type.
Variable cuda : T -> T.

(** The loop [for i, torch_obj in enumerate(args): res[i] = torch_obj.cuda()]. *)
Fixpoint cuda_loop (i : nat) (args res : list T) : list T :=
  match args with
  | [] => res
  | torch_obj :: rest => cuda_loop (S i) rest (<[i := cuda torch_obj]> res)
  end.

(** [to_cuda_if_available] applied to the tuple [args], given what
    [torch.cuda.is_available()] answers: a single object, or the list
    of them. *)
Definition to_cuda_if_available (is_available : bool) (args : list T)
  : T + list T :=
  let res := args in
  let res := if is_available then cuda_loop O args res else res in
  match res with
  | [x] => inl x
  | _ => inr res
  end.

End ToCuda.

(** * Properties *)

(** ** Training callbacks *)

Section Callbacks.

Lemma SaveBest_apply_epoch (self : SaveBest.t) (value : Q) :
  SaveBest.current_epoch (SaveBest.apply self value).2 =
  SaveBest.current_epoch self + 1.
Proof.
  unfold SaveBest.apply.
  destruct (_ || _); reflexivity.
Qed.

(** C6.  [SaveBest("inf")] fed 5, 3, 4, 3 answers True, True, False,
    False and ends with best value 3 recorded at epoch 1; and every
    call of [apply], in any state and on any value, advances the epoch
    counter by exactly one. *)
Theorem SaveBest_inf_sequence :
  (exists sb st,
      SaveBest.init "inf" = Ok sb /\
      SaveBest.run sb [5; 3; 4; 3]%Q = ([true; true; false; false], st) /\
      SaveBest.best_val st = Fin 3 /\
      SaveBest.best_epoch st = 1 /\
      SaveBest.current_epoch st = 4) /\
  (forall self value,
      SaveBest.current_epoch (SaveBest.apply self value).2 =
      SaveBest.current_epoch self + 1).
Proof.
  split.
  - eexists _, _. repeat split; reflexivity.
  - exact SaveBest_apply_epoch.
Qed.

(** The stop test of [EarlyStopping.apply], read off the state. *)
Lemma EarlyStopping_apply_true (self : EarlyStopping.t) (value : Q) :
  (EarlyStopping.apply self value).1 = true <->
  EarlyStopping.improves self value = false /\
  EarlyStopping.patience self <
    EarlyStopping.current_epoch self - EarlyStopping.best_epoch self /\
  EarlyStopping.first_early_wait self < EarlyStopping.current_epoch self.
Proof.
  unfold EarlyStopping.apply.
  destruct (EarlyStopping.improves self value); simpl.
  - split; [discriminate | intros [? _]; discriminate].
  - destruct (Z.ltb_spec (EarlyStopping.patience self)
                (EarlyStopping.current_epoch self - EarlyStopping.best_epoch self));
      destruct (Z.ltb_spec (EarlyStopping.first_early_wait self)
                  (EarlyStopping.current_epoch self));
      simpl; split; try discriminate; try tauto; lia.
Qed.

Lemma EarlyStopping_apply_epoch (self : EarlyStopping.t) (value : Q) :
  EarlyStopping.current_epoch (EarlyStopping.apply self value).2 =
  if (EarlyStopping.apply self value).1 then 0
  else EarlyStopping.current_epoch self + 1.
Proof.
  unfold EarlyStopping.apply.
  destruct (EarlyStopping.improves self value); simpl; [reflexivity |].
  destruct (_ && _); reflexivity.
Qed.

(** C1, as the code has it.  With patience 2, comparison "inf" and no
    warm-up, the values 5, 4, 5, 5, 5 are answered False four times and
    True on the fifth call (index 4): the best epoch is 1, and the
    epoch counter first exceeds it by more than 2 when it reaches 4.
    In any state, [apply] answers True exactly when the value does not
    improve on the best, the epoch counter exceeds the best epoch by
    more than the patience, and the counter is past the warm-up; it
    then leaves the counter at 0, and otherwise advances it by one. *)
Theorem EarlyStopping_stops_on_fifth_call :
  (exists es st,
      EarlyStopping.init 2 "inf" 0 = Ok es /\
      EarlyStopping.run es [5; 4; 5; 5; 5]%Q =
        ([false; false; false; false; true], st) /\
      EarlyStopping.current_epoch st = 0) /\
  (forall self value,
      ((EarlyStopping.apply self value).1 = true <->
       EarlyStopping.improves self value = false /\
       EarlyStopping.patience self <
         EarlyStopping.current_epoch self - EarlyStopping.best_epoch self /\
       EarlyStopping.first_early_wait self < EarlyStopping.current_epoch self) /\
      EarlyStopping.current_epoch (EarlyStopping.apply self value).2 =
        if (EarlyStopping.apply self value).1 then 0
        else EarlyStopping.current_epoch self + 1).
Proof.
  split.
  - eexists _, _. repeat split; reflexivity.
  - intros self value. split.
    + apply EarlyStopping_apply_true.
    + apply EarlyStopping_apply_epoch.
Qed.

(** C1, as the claim words it, fails: the fourth call (index 3) on
    5, 4, 5, 5, 5 does not signal the stop. *)
Lemma EarlyStopping_fourth_call_continues :
  ~ (forall es,
        EarlyStopping.init 2 "inf" 0 = Ok es ->
        (EarlyStopping.run es [5; 4; 5; 5; 5]%Q).1 !! 3%nat = Some true).
Proof.
  intros H. specialize (H _ eq_refl). discriminate H.
Qed.

End Callbacks.

(** ** Running statistics *)

Section Meters.

Lemma AverageMeter_update_positive (self : AverageMeter.t) (v : Q) (n : Z) :
  AverageMeter.count self + n <> 0 ->
  let st := (AverageMeter.update self v n).1 in
  (AverageMeter.update self v n).2 = Returned /\
  AverageMeter.val st = v /\
  AverageMeter.count st = AverageMeter.count self + n /\
  AverageMeter.sum st = (AverageMeter.sum self + v * inject_Z n)%Q /\
  AverageMeter.avg st =
    (AverageMeter.sum st / inject_Z (AverageMeter.count st))%Q /\
  (AverageMeter.avg st * inject_Z (AverageMeter.count st) ==
     AverageMeter.sum st)%Q.
Proof.
  intros Hc. unfold AverageMeter.update.
  destruct (Z.eqb_spec (AverageMeter.count self + n) 0) as [E | _];
    [contradiction |].
  simpl. repeat split.
  rewrite Qmult_comm. apply Qmult_div_r.
  unfold Qeq. simpl. lia.
Qed.

(** C10.  On a freshly reset meter, [update] with weight 0 raises
    [ZeroDivisionError]; and whenever the count reached by an update is
    positive, the update returns and leaves [avg] equal to [sum]
    divided by [count]. *)
Theorem AverageMeter_update_division (self : AverageMeter.t) (v : Q) (n : Z)
    (Hpos : 0 < AverageMeter.count self + n) :
  (AverageMeter.update (AverageMeter.reset self) v 0).2 =
    Raised ZeroDivisionError /\
  let st := (AverageMeter.update self v n).1 in
  (AverageMeter.update self v n).2 = Returned /\
  AverageMeter.count st = AverageMeter.count self + n /\
  AverageMeter.sum st = (AverageMeter.sum self + v * inject_Z n)%Q /\
  AverageMeter.avg st =
    (AverageMeter.sum st / inject_Z (AverageMeter.count st))%Q /\
  (AverageMeter.avg st * inject_Z (AverageMeter.count st) ==
     AverageMeter.sum st)%Q.
Proof.
  split; [reflexivity |].
  destruct (AverageMeter_update_positive self v n) as (H1 & _ & H3 & H4 & H5 & H6);
    [lia |].
  cbv zeta. auto.
Qed.

Lemma AverageMeter_update_division_witness :
  0 < AverageMeter.count AverageMeter.init + 1 /\
  (AverageMeter.update AverageMeter.init 3 1).2 = Returned.
Proof.
  split; [reflexivity |].
  apply (AverageMeter_update_division AverageMeter.init 3 1). reflexivity.
Defined.

Lemma AverageMeterSet_update_fresh (self : AverageMeterSet.t)
    (name : string) (value : Q) (n : Z) :
  AverageMeterSet.meters self !! name = None ->
  AverageMeterSet.meters (AverageMeterSet.update self name value n).1 !! name =
    Some (AverageMeter.update AverageMeter.init value n).1.
Proof.
  intros Hnone. unfold AverageMeterSet.update. rewrite Hnone.
  rewrite lookup_insert_eq.
  destruct (AverageMeter.update AverageMeter.init value n) as [m' o] eqn:E.
  simpl. apply lookup_insert_eq.
Qed.

(** C8.  A meter of an [AverageMeterSet] is created on the first update
    for its name: a name absent from the set is, after the update,
    bound to a fresh meter holding that one observation.  After the
    updates ("loss", 1.0) and ("loss", 3.0) of weight 1 on an empty
    set, the "loss" meter has average 2, count 2 and sum 4. *)
Theorem AverageMeterSet_loss (self : AverageMeterSet.t)
    (name : string) (value : Q) (n : Z)
    (Hfresh : AverageMeterSet.meters self !! name = None) :
  AverageMeterSet.meters (AverageMeterSet.update self name value n).1 !! name =
    Some (AverageMeter.update AverageMeter.init value n).1 /\
  AverageMeterSet.meters AverageMeterSet.init !! "loss" = None /\
  let s1 := AverageMeterSet.update AverageMeterSet.init "loss" 1 1 in
  let s2 := AverageMeterSet.update s1.1 "loss" 3 1 in
  s1.2 = Returned /\ s2.2 = Returned /\
  exists m,
    AverageMeterSet.getitem s2.1 "loss" = Ok m /\
    (AverageMeter.avg m == 2)%Q /\
    AverageMeter.count m = 2 /\
    (AverageMeter.sum m == 4)%Q /\
    AverageMeterSet.averages s2.1 "/avg" !! "loss/avg" = Some (AverageMeter.avg m) /\
    AverageMeterSet.counts s2.1 "/count" !! "loss/count" = Some 2 /\
    AverageMeterSet.sums s2.1 "/sum" !! "loss/sum" = Some (AverageMeter.sum m).
Proof.
  split; [by apply AverageMeterSet_update_fresh |].
  split; [reflexivity |].
  cbv zeta. split; [reflexivity |]. split; [reflexivity |].
  eexists. split; [vm_compute; reflexivity |].
  repeat split; vm_compute; reflexivity.
Qed.

Lemma AverageMeterSet_loss_witness :
  AverageMeterSet.meters AverageMeterSet.init !! "loss" = None /\
  AverageMeterSet.meters
    (AverageMeterSet.update AverageMeterSet.init "loss" 1 1).1 !! "loss" =
    Some (AverageMeter.update AverageMeter.init 1 1).1.
Proof.
  split; [reflexivity |].
  apply (AverageMeterSet_loss AverageMeterSet.init "loss" 1 1). reflexivity.
Defined.

End Meters.

(** ** Weak labels *)

Section Weak.

Variable self : ManyHotEncoder.t.

Lemma decode_weak_loop_selected (v : list Q) :
  forall (i : nat) (acc : list string),
    (i + length v <= length (ManyHotEncoder.labels self))%nat ->
    ManyHotEncoder.decode_weak_loop self i v acc =
      Ok ((acc ++ selected (drop i (ManyHotEncoder.labels self)) v)%list).
Proof.
  induction v as [| x xs IH]; intros i acc Hlen; simpl.
  - destruct (drop i _); simpl; by rewrite app_nil_r.
  - simpl in Hlen.
    destruct (lookup_lt_is_Some_2 (ManyHotEncoder.labels self) i) as [l Hl];
      [lia |].
    rewrite (drop_S _ _ _ Hl). simpl. rewrite Hl.
    destruct (Qeq_bool x 1).
    + rewrite IH by lia. by rewrite <- app_assoc.
    + rewrite IH by lia. reflexivity.
Qed.

Lemma selected_sublist (labels : list string) (v : list Q) :
  sublist (selected labels v) labels.
Proof.
  revert v. induction labels as [| l ls IH]; intros [| x xs]; simpl;
    try apply sublist_nil_l.
  destruct (Qeq_bool x 1).
  - apply sublist_skip, IH.
  - apply sublist_cons, IH.
Qed.

Lemma selected_elem_of (labels : list string) (v : list Q) (l : string) :
  l ∈ selected labels v <->
  exists i x, labels !! i = Some l /\ v !! i = Some x /\ (x == 1)%Q.
Proof.
  revert v. induction labels as [| l0 ls IH]; intros [| x xs]; simpl.
  - split; [intros H; inversion H | intros (i & y & H & _); destruct i; discriminate].
  - split; [intros H; inversion H | intros (i & y & H & _); destruct i; discriminate].
  - split; [intros H; inversion H | intros (i & y & _ & H & _); destruct i; discriminate].
  - destruct (Qeq_bool x 1) eqn:E.
    + rewrite elem_of_cons, IH. split.
      * intros [-> | (i & y & H1 & H2 & H3)].
        -- exists O, x. repeat split. by apply Qeq_bool_iff.
        -- exists (S i), y. auto.
      * intros (i & y & H1 & H2 & H3). destruct i as [| i]; simpl in *.
        -- left. congruence.
        -- right. eauto.
    + rewrite IH. split.
      * intros (i & y & H1 & H2 & H3). exists (S i), y. auto.
      * intros (i & y & H1 & H2 & H3). destruct i as [| i]; simpl in *.
        -- injection H2 as <-. apply Qeq_bool_iff in H3. congruence.
        -- eauto.
Qed.

(** C7.  On a vector with one entry per vocabulary label,
    [decode_weak] returns the subsequence of the vocabulary, in
    vocabulary order, made of the labels whose entry equals 1: a label
    is returned exactly when some position holds it in the vocabulary
    and 1 in the vector. *)
Theorem decode_weak_selects (v : list Q)
    (Hlen : length v = length (ManyHotEncoder.labels self)) :
  exists out,
    ManyHotEncoder.decode_weak self v = Ok out /\
    out = selected (ManyHotEncoder.labels self) v /\
    sublist out (ManyHotEncoder.labels self) /\
    forall l,
      l ∈ out <->
      exists i x,
        ManyHotEncoder.labels self !! i = Some l /\
        v !! i = Some x /\ (x == 1)%Q.
Proof.
  exists (selected (ManyHotEncoder.labels self) v). split.
  - unfold ManyHotEncoder.decode_weak.
    rewrite decode_weak_loop_selected by (simpl; lia). reflexivity.
  - split; [reflexivity |]. split.
    + apply selected_sublist.
    + intros l. apply selected_elem_of.
Qed.

(** The vocabulary positions. *)
Lemma index_of_Some (labels : list string) (s : string) (i : nat) :
  index_of s labels = Some i ->
  labels !! i = Some s /\ forall j, (j < i)%nat -> labels !! j <> Some s.
Proof.
  revert i. induction labels as [| l ls IH]; intros i; simpl; [discriminate |].
  destruct (String.eqb_spec l s) as [-> | Hne].
  - intros [= <-]. split; [reflexivity | intros j Hj; lia].
  - destruct (index_of s ls) as [i' |] eqn:E; simpl; [| discriminate].
    intros [= <-]. destruct (IH i' eq_refl) as [H1 H2]. split; [exact H1 |].
    intros [| j] Hj; simpl; [congruence | apply H2; lia].
Qed.

Lemma index_of_None (labels : list string) (s : string) :
  index_of s labels = None <-> s ∉ labels.
Proof.
  induction labels as [| l ls IH]; simpl.
  - split; [intros _ H; inversion H | reflexivity].
  - rewrite not_elem_of_cons.
    destruct (String.eqb_spec l s) as [-> | Hne].
    + split; [discriminate | intros [H _]; congruence].
    + destruct (index_of s ls); simpl.
      * split; [discriminate |]. intros [_ H]. by apply IH in H.
      * split; [intros _; split; [congruence | by apply IH] | reflexivity].
Qed.

Lemma index_of_elem (labels : list string) (s : string) :
  s ∈ labels -> exists i, index_of s labels = Some i /\ (i < length labels)%nat.
Proof.
  intros Hin. destruct (index_of s labels) as [i |] eqn:E.
  - exists i. split; [reflexivity |].
    apply index_of_Some in E as [E _]. by apply lookup_lt_Some in E.
  - by apply index_of_None in E.
Qed.

End Weak.

Lemma decode_weak_selects_witness :
  let enc := ManyHotEncoder.mk ["cat"; "dog"; "bell"] None in
  length [1; 0; 1]%Q = length (ManyHotEncoder.labels enc) /\
  ManyHotEncoder.decode_weak enc [1; 0; 1]%Q = Ok ["cat"; "bell"].
Proof.
  split; [reflexivity |].
  destruct (decode_weak_selects (ManyHotEncoder.mk ["cat"; "dog"; "bell"] None)
              [1; 0; 1]%Q eq_refl) as (out & Hdec & Hout & _).
  rewrite Hdec, Hout. reflexivity.
Defined.

Section WeakEncoding.

Variable self : ManyHotEncoder.t.

Lemma encode_weak_loop_skips (entries : list scalar) :
  forall y,
    ManyHotEncoder.encode_weak_loop self entries y =
    ManyHotEncoder.encode_weak_loop self
      (filter (fun e => isna e = false) entries) y.
Proof.
  induction entries as [| e es IH]; intros y; [reflexivity |].
  rewrite filter_cons. destruct e; simpl.
  - apply IH.
  - destruct (index_of s _); simpl; [apply IH | reflexivity].
  - reflexivity.
  - reflexivity.
Qed.

Lemma encode_weak_loop_placeable (entries : list scalar) :
  forall y,
    forallb (placeable (ManyHotEncoder.labels self)) entries = true ->
    exists y',
      ManyHotEncoder.encode_weak_loop self entries y = Ok y' /\
      length y' = length y /\
      (Forall zero_or_one y -> Forall zero_or_one y').
Proof.
  induction entries as [| e es IH]; intros y Hall; simpl in *.
  - exists y. auto.
  - apply andb_true_iff in Hall as [He Hes].
    destruct e; simpl in *; try discriminate.
    + apply IH, Hes.
    + apply bool_decide_eq_true in He.
      destruct (index_of_elem _ _ He) as (i & Hi & Hlt). rewrite Hi. simpl.
      destruct (IH (<[i := 1%Q]> y) Hes) as (y' & Hy' & Hlen & H01).
      exists y'. split; [exact Hy' |]. split.
      * by rewrite Hlen, length_insert.
      * intros Hy. apply H01. apply Forall_insert; [exact Hy | by right].
Qed.

Lemma encode_weak_loop_unknown (entries : list scalar) :
  forall y,
    forallb (placeable (ManyHotEncoder.labels self)) entries = false ->
    ManyHotEncoder.encode_weak_loop self entries y = Raise ValueError.
Proof.
  induction entries as [| e es IH]; intros y Hall; simpl in *; [discriminate |].
  apply andb_false_iff in Hall.
  destruct e; simpl in *.
  - destruct Hall as [? | Hes]; [discriminate | by apply IH].
  - destruct (index_of s _) as [i |] eqn:Hi; simpl; [| reflexivity].
    destruct Hall as [He | Hes]; [| by apply IH].
    apply bool_decide_eq_false in He.
    apply index_of_Some in Hi as [Hi _].
    exfalso. apply He. eapply list_elem_of_lookup_2, Hi.
  - reflexivity.
  - reflexivity.
Qed.

(** C2, as the code has it.  In every collection handed to
    [encode_weak], the missing entries are skipped: the call behaves as
    on the collection without them.  When every entry that is not
    missing is a label of the vocabulary, the call returns a vector
    with one entry per vocabulary label, each 0 or 1.  An entry that is
    neither missing nor a label of the vocabulary is not skipped: the
    call raises [ValueError]. *)
Theorem encode_weak_skips_missing_only (x : weak_input)
    (Hx : ManyHotEncoder.weak_sentinel x = false) :
  ManyHotEncoder.encode_weak self x =
    ManyHotEncoder.encode_weak self
      (WList (filter (fun e => isna e = false) (ManyHotEncoder.weak_entries x))) /\
  (forallb (placeable (ManyHotEncoder.labels self))
           (ManyHotEncoder.weak_entries x) = true ->
   exists y,
     ManyHotEncoder.encode_weak self x = Ok y /\
     length y = length (ManyHotEncoder.labels self) /\
     Forall zero_or_one y) /\
  (forallb (placeable (ManyHotEncoder.labels self))
           (ManyHotEncoder.weak_entries x) = false ->
   ManyHotEncoder.encode_weak self x = Raise ValueError).
Proof.
  unfold ManyHotEncoder.encode_weak. rewrite Hx. simpl.
  split; [apply encode_weak_loop_skips |]. split.
  - intros Hall.
    destruct (encode_weak_loop_placeable _
                (replicate (length (ManyHotEncoder.labels self)) 0%Q) Hall)
      as (y & Hy & Hlen & H01).
    exists y. split; [exact Hy |]. split.
    + by rewrite Hlen, length_replicate.
    + apply H01. apply Forall_replicate. by left.
  - apply encode_weak_loop_unknown.
Qed.

End WeakEncoding.

Lemma encode_weak_skips_missing_only_witness :
  let enc := ManyHotEncoder.mk ["cat"; "dog"] None in
  ManyHotEncoder.weak_sentinel (WList [SStr "dog"; SNa]) = false /\
  ManyHotEncoder.encode_weak enc (WList [SStr "dog"; SNa]) =
    ManyHotEncoder.encode_weak enc (WList [SStr "dog"]).
Proof.
  split; [reflexivity |].
  apply (encode_weak_skips_missing_only (ManyHotEncoder.mk ["cat"; "dog"] None)
           (WList [SStr "dog"; SNa]) eq_refl).
Defined.

(** C2, as the claim words it, fails: a label outside the vocabulary is
    not skipped, the call raises [ValueError] and returns no vector. *)
Lemma encode_weak_unknown_label_raises :
  ManyHotEncoder.encode_weak (ManyHotEncoder.mk ["cat"; "dog"] None)
                             (WList [SStr "cat"; SStr "bird"]) =
    Raise ValueError /\
  ~ exists y,
      ManyHotEncoder.encode_weak (ManyHotEncoder.mk ["cat"; "dog"] None)
                                 (WList [SStr "cat"; SStr "bird"]) = Ok y.
Proof.
  split; [reflexivity |]. intros [y Hy]. discriminate Hy.
Qed.

(** ** Arrays and slices *)

Section Arrays.

Lemma get_np_full (n k : nat) (c0 : Q) (r c : nat) :
  get (np_full n k c0) r c =
  if (r <? n)%nat && (c <? k)%nat then c0 else 0%Q.
Proof.
  unfold get, np_full. simpl. rewrite (nth_lookup _ r).
  destruct (Nat.ltb_spec r n) as [Hr | Hr]; simpl.
  - rewrite lookup_replicate_2 by exact Hr. simpl. rewrite nth_lookup.
    destruct (Nat.ltb_spec c k) as [Hc | Hc].
    + by rewrite lookup_replicate_2.
    + rewrite lookup_ge_None_2; [reflexivity | by rewrite length_replicate].
  - rewrite lookup_ge_None_2 by (by rewrite length_replicate).
    simpl. by destruct c.
Qed.

Lemma well_shaped_np_full (n k : nat) (c0 : Q) : well_shaped (np_full n k c0).
Proof.
  split; simpl.
  - apply length_replicate.
  - apply Forall_replicate, length_replicate.
Qed.

Lemma well_shaped_set_rows (y : ndarray) (a b i : nat) :
  well_shaped y -> well_shaped (set_rows y a b i).
Proof.
  intros [Hlen Hrows]. split; simpl.
  - by rewrite length_imap.
  - apply Forall_lookup_2. intros r row Hrow.
    rewrite list_lookup_imap in Hrow.
    destruct (cells y !! r) as [row0 |] eqn:E; [| discriminate].
    simpl in Hrow. injection Hrow as <-.
    pose proof (Forall_lookup_1 _ _ _ _ Hrows E) as Hk. simpl in Hk.
    destruct (_ && _); [by rewrite length_insert | exact Hk].
Qed.

Lemma get_set_rows (y : ndarray) (a b i r c : nat) :
  well_shaped y ->
  get (set_rows y a b i) r c =
  if (a <=? r)%nat && (r <? b)%nat && (c =? i)%nat
     && (r <? n_rows y)%nat && (c <? n_cols y)%nat
  then 1%Q else get y r c.
Proof.
  intros [Hlen Hrows]. unfold get, set_rows. simpl.
  rewrite !(nth_lookup _ r), list_lookup_imap.
  destruct (cells y !! r) as [row |] eqn:E; simpl.
  - pose proof (Forall_lookup_1 _ _ _ _ Hrows E) as Hk. simpl in Hk.
    apply lookup_lt_Some in E as Hr. rewrite Hlen in Hr.
    destruct (Nat.ltb_spec r (n_rows y)); [| lia].
    rewrite andb_true_r.
    destruct ((a <=? r)%nat && (r <? b)%nat); simpl; [| reflexivity].
    rewrite !nth_lookup.
    destruct (Nat.eqb_spec c i) as [-> | Hne]; simpl.
    + destruct (Nat.ltb_spec i (n_cols y)) as [Hi | Hi].
      * rewrite list_lookup_insert_eq by lia. reflexivity.
      * rewrite list_insert_ge by lia. reflexivity.
    + rewrite list_lookup_insert_ne by congruence. reflexivity.
  - apply lookup_ge_None in E. rewrite Hlen in E.
    destruct (Nat.ltb_spec r (n_rows y)); [lia |].
    rewrite andb_false_r. reflexivity.
Qed.

Lemma zero_or_one_set_rows (y : ndarray) (a b i : nat) :
  Forall (Forall zero_or_one) (cells y) ->
  Forall (Forall zero_or_one) (cells (set_rows y a b i)).
Proof.
  intros H. simpl. apply Forall_lookup_2. intros r row Hrow.
  rewrite list_lookup_imap in Hrow.
  destruct (cells y !! r) as [row0 |] eqn:E; [| discriminate].
  simpl in Hrow. injection Hrow as <-.
  pose proof (Forall_lookup_1 _ _ _ _ H E) as H0.
  destruct (_ && _); [| exact H0].
  apply Forall_insert; [exact H0 | by right].
Qed.

(** A non-negative slice bound is only clipped to the length. *)
Lemma adjust_nonneg (n : nat) (x : Z) :
  0 <= x -> adjust n x = Nat.min n (Z.to_nat x).
Proof.
  intros Hx. unfold adjust.
  destruct (Z.ltb_spec x 0); [lia |].
  destruct (Z.ltb_spec x 0); [lia |].
  destruct (Z.leb_spec (Z.of_nat n) x); lia.
Qed.

Lemma get_assign_slice (y : ndarray) (o f : Z) (i r c : nat) :
  well_shaped y -> 0 <= o -> 0 <= f ->
  (i < n_cols y)%nat ->
  get (assign_slice y o f i) r c =
  if (o <=? Z.of_nat r) && (Z.of_nat r <? f) && (c =? i)%nat
     && (r <? n_rows y)%nat
  then 1%Q else get y r c.
Proof.
  intros Hy Ho Hf Hi. unfold assign_slice.
  rewrite get_set_rows by exact Hy. rewrite !adjust_nonneg by assumption.
  destruct (Nat.eqb_spec c i) as [-> | Hne];
    [| by rewrite !andb_false_r].
  destruct (Nat.ltb_spec r (n_rows y)) as [Hr | Hr];
    [| by rewrite !andb_false_r].
  destruct (Nat.ltb_spec i (n_cols y)); [| lia].
  rewrite !andb_true_r.
  destruct (Nat.leb_spec (Nat.min (n_rows y) (Z.to_nat o)) r);
    destruct (Nat.ltb_spec r (Nat.min (n_rows y) (Z.to_nat f)));
    destruct (Z.leb_spec o (Z.of_nat r));
    destruct (Z.ltb_spec (Z.of_nat r) f); simpl; try reflexivity; lia.
Qed.

End Arrays.

(** ** Strong labels: shape of the encoding *)

Section StrongEncoding.

Variable self : ManyHotEncoder.t.

Lemma binary_set_rows (y : ndarray) (a b i : nat) :
  binary y -> binary (set_rows y a b i).
Proof.
  intros [H1 H2]. split.
  - by apply well_shaped_set_rows.
  - by apply zero_or_one_set_rows.
Qed.

Lemma binary_np_zeros (n k : nat) : binary (np_zeros n k).
Proof.
  split; [apply well_shaped_np_full |].
  simpl. apply Forall_replicate, Forall_replicate. by left.
Qed.

Lemma encode_rows_shape (rs : list event_row) :
  forall y y',
    ManyHotEncoder.encode_rows self rs y = Ok y' ->
    binary y ->
    n_rows y' = n_rows y /\ n_cols y' = n_cols y /\ binary y'.
Proof.
  induction rs as [| row rest IH]; intros y y' Henc Hy;
    cbn [ManyHotEncoder.encode_rows] in Henc.
  - injection Henc as <-. auto.
  - destruct (isna (event_label row)); cbn [negb] in Henc.
    + by apply IH.
    + destruct (index _ _) as [i | e]; cbn [bind] in Henc; [| discriminate].
      destruct (int_of (onset row)) as [o | e]; cbn [bind] in Henc; [| discriminate].
      destruct (int_of (offset row)) as [f | e]; cbn [bind] in Henc; [| discriminate].
      apply IH in Henc; [exact Henc | by apply binary_set_rows].
Qed.

Lemma encode_items_shape (items : list item) :
  forall y y',
    ManyHotEncoder.encode_items self items y = Ok y' ->
    binary y ->
    n_rows y' = n_rows y /\ n_cols y' = n_cols y /\ binary y'.
Proof.
  induction items as [| it rest IH]; intros y y' Henc Hy;
    cbn [ManyHotEncoder.encode_items] in Henc.
  - injection Henc as <-. auto.
  - destruct it as [s | label o f | t | t]; try discriminate.
    + destruct (is_not_empty_str (SStr s)); [| by apply IH].
      destruct (index _ _) as [i | e]; cbn [bind] in Henc; [| discriminate].
      apply IH in Henc; [exact Henc | by apply binary_set_rows].
    + destruct (is_not_empty_str label); [| by apply IH].
      destruct (index _ _) as [i | e]; cbn [bind] in Henc; [| discriminate].
      destruct (int_of o) as [o' | e]; cbn [bind] in Henc; [| discriminate].
      destruct (int_of f) as [f' | e]; cbn [bind] in Henc; [| discriminate].
      apply IH in Henc; [exact Henc | by apply binary_set_rows].
Qed.

Lemma index_elem (s : string) :
  s ∈ ManyHotEncoder.labels self ->
  exists i, index (ManyHotEncoder.labels self) (SStr s) = Ok i /\
            (i < length (ManyHotEncoder.labels self))%nat.
Proof.
  intros Hin. destruct (index_of_elem _ _ Hin) as (i & Hi & Hlt).
  exists i. unfold index. by rewrite Hi.
Qed.

Lemma encode_rows_accepted (n : Z) (rs : list event_row) :
  forall y,
    forallb (accepted_row (ManyHotEncoder.labels self) n) rs = true ->
    exists y', ManyHotEncoder.encode_rows self rs y = Ok y'.
Proof.
  induction rs as [| row rest IH]; intros y Hall;
    cbn [ManyHotEncoder.encode_rows forallb] in *; [eauto |].
  apply andb_true_iff in Hall as [Hrow Hrest].
  unfold accepted_row in Hrow.
  destruct (event_label row) as [| l | |]; try discriminate.
  destruct (onset row) as [o | |]; try discriminate.
  destruct (offset row) as [f | |]; try discriminate.
  rewrite !andb_true_iff in Hrow. destruct Hrow as [[[[Hl _] _] _] _].
  apply bool_decide_eq_true in Hl.
  destruct (index_elem l Hl) as (i & Hi & _).
  cbn [isna negb]. rewrite Hi. cbn [bind int_of]. by apply IH.
Qed.

Lemma encode_items_accepted (n : Z) (items : list item) :
  forall y,
    forallb (accepted_item (ManyHotEncoder.labels self) n) items = true ->
    exists y', ManyHotEncoder.encode_items self items y = Ok y'.
Proof.
  induction items as [| it rest IH]; intros y Hall;
    cbn [ManyHotEncoder.encode_items forallb] in *; [eauto |].
  apply andb_true_iff in Hall as [Hit Hrest].
  destruct it as [s | label o f | t | t]; cbn [accepted_item] in Hit;
    try discriminate.
  - apply bool_decide_eq_true in Hit.
    destruct (index_elem s Hit) as (i & Hi & _).
    destruct (is_not_empty_str (SStr s)); [| by apply IH].
    rewrite Hi. cbn [bind]. by apply IH.
  - destruct label as [| l | |]; try discriminate.
    destruct o as [o | |]; try discriminate.
    destruct f as [f | |]; try discriminate.
    rewrite !andb_true_iff in Hit. destruct Hit as [[[[Hl _] _] _] _].
    apply bool_decide_eq_true in Hl.
    destruct (index_elem l Hl) as (i & Hi & _).
    destruct (is_not_empty_str (SStr l)); [| by apply IH].
    rewrite Hi. cbn [bind int_of]. by apply IH.
Qed.

Lemma encode_items_app (pre post : list item) :
  forall y,
    ManyHotEncoder.encode_items self ((pre ++ post)%list) y =
    (y' <- ManyHotEncoder.encode_items self pre y ;;
     ManyHotEncoder.encode_items self post y').
Proof.
  induction pre as [| it rest IH]; intros y;
    cbn [app ManyHotEncoder.encode_items]; [reflexivity |].
  destruct it as [s | label o f | t | t]; try reflexivity.
  - destruct (is_not_empty_str (SStr s)); [| apply IH].
    destruct (index _ _); cbn [bind]; [apply IH | reflexivity].
  - destruct (is_not_empty_str label); [| apply IH].
    destruct (index _ _); cbn [bind]; [| reflexivity].
    destruct (int_of o); cbn [bind]; [| reflexivity].
    destruct (int_of f); cbn [bind]; [apply IH | reflexivity].
Qed.

Lemma encode_items_rejects (items : list item) :
  forall y,
    (exists it, it ∈ items /\
                match it with
                | ISized _ | IUnsized _ => True
                | _ => False
                end) ->
    exists e, ManyHotEncoder.encode_items self items y = Raise e.
Proof.
  induction items as [| it rest IH]; intros y (bad & Hin & Hbad).
  - inversion Hin.
  - assert (Hrest : it = bad \/ exists it', it' ∈ rest /\
              match it' with ISized _ | IUnsized _ => True | _ => False end).
    { apply elem_of_cons in Hin as [-> | Hin]; [by left | right; eauto]. }
    cbn [ManyHotEncoder.encode_items].
    destruct it as [s | label o f | t | t]; eauto.
    + destruct Hrest as [<- | Hrest]; [contradiction |].
      destruct (is_not_empty_str (SStr s)); [| by apply IH].
      destruct (index _ _); cbn [bind]; [by apply IH | eauto].
    + destruct Hrest as [<- | Hrest]; [contradiction |].
      destruct (is_not_empty_str label); [| by apply IH].
      destruct (index _ _); cbn [bind]; [| eauto].
      destruct (int_of o); cbn [bind]; [| eauto].
      destruct (int_of f); cbn [bind]; [by apply IH | eauto].
Qed.

Variable n : nat.
Hypothesis Hframes : ManyHotEncoder.n_frames self = Some (Z.of_nat n).

Local Abbreviation k := (length (ManyHotEncoder.labels self)).

Lemma zeros_frames : ManyHotEncoder.zeros self (Z.of_nat n) = Ok (np_zeros n k).
Proof.
  unfold ManyHotEncoder.zeros.
  destruct (Z.ltb_spec (Z.of_nat n) 0); [lia |]. by rewrite Nat2Z.id.
Qed.

(** C3, as the code has it.  With the frame count set, an input that is
    not the empty sentinel and whose type is none of table, Series,
    list and array is refused with [NotImplementedError] naming its
    type.  A list, Series or array holding an element that is neither
    a string nor of length 3 returns no matrix; when the elements before
    the first such element are encoded without error and that element
    has a length, the error is [NotImplementedError] naming the
    element's type.  A table is never refused for its columns: without
    the onset, offset and event_label columns it yields the all-zero
    matrix. *)
Theorem encode_strong_unsupported (x : pyobj)
    (Hx : ManyHotEncoder.strong_sentinel x = false) :
  (dispatched (type_of x) = false ->
   ManyHotEncoder.encode_strong_df self x =
     Raise (NotImplementedError (Some (type_of x)))) /\
  (forall items,
      iterated x = Some items ->
      (exists it, it ∈ items /\
                  match it with
                  | ISized _ | IUnsized _ => True
                  | _ => False
                  end) ->
      exists e, ManyHotEncoder.encode_strong_df self x = Raise e) /\
  (forall pre t post y,
      iterated x = Some ((pre ++ ISized t :: post)%list) ->
      ManyHotEncoder.encode_items self pre (np_zeros n k) = Ok y ->
      ManyHotEncoder.encode_strong_df self x =
        Raise (NotImplementedError (Some t))) /\
  (forall df,
      x = PDataFrame df ->
      event_keys_in (columns df) = false ->
      ManyHotEncoder.encode_strong_df self x = Ok (np_zeros n k)).
Proof.
  unfold ManyHotEncoder.encode_strong_df.
  rewrite Hframes, Hx, zeros_frames. cbn [bind].
  split; [| split; [| split]].
  - destruct x; simpl; try discriminate; reflexivity.
  - intros items Hit Hbad.
    destruct x; simpl in Hit; try discriminate.
    + destruct (event_keys_in (s_index sr)); [discriminate |].
      injection Hit as <-. by apply encode_items_rejects.
    + injection Hit as <-. by apply encode_items_rejects.
    + injection Hit as <-. by apply encode_items_rejects.
  - intros pre t post y Hit Hpre.
    assert (Hgo : ManyHotEncoder.encode_items self (pre ++ ISized t :: post)
                    (np_zeros n k) = Raise (NotImplementedError (Some t))).
    { rewrite encode_items_app, Hpre. reflexivity. }
    destruct x; simpl in Hit; try discriminate.
    + destruct (event_keys_in (s_index sr)); [discriminate |].
      injection Hit as ->. exact Hgo.
    + injection Hit as ->. exact Hgo.
    + injection Hit as ->. exact Hgo.
  - intros df -> Hkeys. by rewrite Hkeys.
Qed.

(** C9.  With the frame count set, every matrix returned by
    [encode_strong_df] for an input other than the empty sentinel has
    exactly [n_frames] rows and one column per vocabulary label, and
    each of its entries is 0 or 1; and a matrix is returned for every
    input whose events have their labels in the vocabulary and their
    onsets and offsets within [0, n_frames]. *)
Theorem encode_strong_shape (x : pyobj)
    (Hx : ManyHotEncoder.strong_sentinel x = false) :
  (forall y,
      ManyHotEncoder.encode_strong_df self x = Ok y ->
      n_rows y = n /\ n_cols y = k /\
      length (cells y) = n /\
      Forall (fun row => length row = k /\ Forall zero_or_one row) (cells y)) /\
  (accepted (ManyHotEncoder.labels self) (Z.of_nat n) x = true ->
   exists y, ManyHotEncoder.encode_strong_df self x = Ok y).
Proof.
  unfold ManyHotEncoder.encode_strong_df.
  rewrite Hframes, Hx, zeros_frames. cbn [bind].
  pose proof (binary_np_zeros n k) as Hz.
  split.
  - intros y Hy.
    assert (Hshape : n_rows y = n /\ n_cols y = k /\ binary y).
    { destruct x; try discriminate.
      - destruct (event_keys_in (columns df)).
        + by apply encode_rows_shape in Hy.
        + injection Hy as <-. auto.
      - destruct (event_keys_in (s_index sr)).
        + by apply encode_rows_shape in Hy.
        + by apply encode_items_shape in Hy.
      - by apply encode_items_shape in Hy.
      - by apply encode_items_shape in Hy. }
    destruct Hshape as (Hr & Hc & [Hlen Hrows] & H01).
    repeat split; try assumption; [congruence |].
    rewrite Hc in Hrows.
    apply Forall_lookup_2. intros r row Hrow. split.
    + exact (Forall_lookup_1 _ _ _ _ Hrows Hrow).
    + exact (Forall_lookup_1 _ _ _ _ H01 Hrow).
  - intros Hacc. destruct x; simpl in Hacc; try discriminate.
    + apply andb_true_iff in Hacc as [Hkeys Hrows]. rewrite Hkeys.
      by eapply encode_rows_accepted.
    + destruct (event_keys_in (s_index sr)).
      * eapply encode_rows_accepted. simpl. by rewrite Hacc.
      * by eapply encode_items_accepted.
    + by eapply encode_items_accepted.
    + by eapply encode_items_accepted.
Qed.

(** C5, as the code has it.  A table holding one event whose label is
    in the vocabulary, with integer onset [o >= 0] and exclusive offset
    [f >= 0], is encoded to a matrix in which the frames [o .. f-1] of
    the label's column are 1 and every other entry is 0. *)
Theorem encode_strong_marks_frames (l : string) (i : nat) (o f : Z)
    (Hi : index_of l (ManyHotEncoder.labels self) = Some i)
    (Ho : 0 <= o) (Hf : 0 <= f) :
  exists y,
    ManyHotEncoder.encode_strong_df self (one_event l o f) = Ok y /\
    n_rows y = n /\ n_cols y = k /\
    forall r c,
      (r < n)%nat ->
      get y r c =
      if (c =? i)%nat && (o <=? Z.of_nat r) && (Z.of_nat r <? f)
      then 1%Q else 0%Q.
Proof.
  unfold ManyHotEncoder.encode_strong_df, one_event.
  rewrite Hframes, zeros_frames. simpl. rewrite Hi. simpl.
  eexists. split; [reflexivity |]. split; [reflexivity |].
  split; [reflexivity |].
  intros r c Hr.
  assert (Hik : (i < k)%nat).
  { apply index_of_Some in Hi as [Hi _]. by apply lookup_lt_Some in Hi. }
  rewrite get_assign_slice; try assumption;
    [| apply well_shaped_np_full].
  unfold np_zeros. rewrite get_np_full. simpl.
  destruct (Nat.ltb_spec r n); [| lia]. rewrite andb_true_r.
  destruct (Nat.eqb_spec c i); simpl.
  - rewrite andb_true_r.
    destruct (_ && _); [reflexivity |]. by destruct (_ <? _)%nat.
  - rewrite andb_false_r. by destruct (_ <? _)%nat.
Qed.

End StrongEncoding.

Lemma encode_strong_unsupported_witness :
  let enc := ManyHotEncoder.mk ["cat"; "dog"] (Some 4) in
  ManyHotEncoder.n_frames enc = Some (Z.of_nat 4) /\
  ManyHotEncoder.strong_sentinel (PStr "cat") = false /\
  ManyHotEncoder.encode_strong_df enc (PStr "cat") =
    Raise (NotImplementedError (Some TStr)).
Proof.
  split; [reflexivity |]. split; [reflexivity |].
  apply (encode_strong_unsupported (ManyHotEncoder.mk ["cat"; "dog"] (Some 4))
           4 eq_refl (PStr "cat") eq_refl).
  reflexivity.
Defined.

(** C3, as the claim words it, fails: a table without the onset, offset
    and event_label columns is not refused, it is encoded to the all-zero
    matrix. *)
Lemma encode_strong_table_without_columns :
  let enc := ManyHotEncoder.mk ["cat"; "dog"] (Some 3) in
  let table := mk_frame ["filename"] [mk_row (SStr "cat") (NInt 0) (NInt 2)] in
  event_keys_in (columns table) = false /\
  ManyHotEncoder.encode_strong_df enc (PDataFrame table) = Ok (np_zeros 3 2) /\
  ~ exists e, ManyHotEncoder.encode_strong_df enc (PDataFrame table) = Raise e.
Proof.
  split; [reflexivity |]. split; [reflexivity |].
  intros [e He]. discriminate He.
Qed.

Lemma encode_strong_shape_witness :
  let enc := ManyHotEncoder.mk ["cat"; "dog"] (Some 4) in
  let x := PList [ITriple (SStr "dog") (NInt 1) (NInt 3); ILabel "cat"] in
  ManyHotEncoder.n_frames enc = Some (Z.of_nat 4) /\
  ManyHotEncoder.strong_sentinel x = false /\
  accepted (ManyHotEncoder.labels enc) (Z.of_nat 4) x = true /\
  exists y,
    ManyHotEncoder.encode_strong_df enc x = Ok y /\
    n_rows y = 4%nat /\ n_cols y = 2%nat.
Proof.
  split; [reflexivity |]. split; [reflexivity |]. split; [reflexivity |].
  destruct (encode_strong_shape (ManyHotEncoder.mk ["cat"; "dog"] (Some 4))
              4 eq_refl
              (PList [ITriple (SStr "dog") (NInt 1) (NInt 3); ILabel "cat"])
              eq_refl) as [Hshape Hret].
  destruct (Hret eq_refl) as [y Hy].
  exists y. split; [exact Hy |].
  destruct (Hshape y Hy) as (Hr & Hc & _). auto.
Defined.

Lemma encode_strong_marks_frames_witness :
  let enc := ManyHotEncoder.mk ["cat"; "dog"] (Some 6) in
  ManyHotEncoder.n_frames enc = Some (Z.of_nat 6) /\
  index_of "dog" (ManyHotEncoder.labels enc) = Some 1%nat /\
  0 <= 2 /\ 0 <= 5 /\
  exists y,
    ManyHotEncoder.encode_strong_df enc (one_event "dog" 2 5) = Ok y /\
    (fun r => get y r 1) <$> seq 0 6 = [0; 0; 1; 1; 1; 0]%Q /\
    (fun r => get y r 0) <$> seq 0 6 = [0; 0; 0; 0; 0; 0]%Q.
Proof.
  split; [reflexivity |]. split; [reflexivity |].
  split; [lia |]. split; [lia |].
  destruct (encode_strong_marks_frames
              (ManyHotEncoder.mk ["cat"; "dog"] (Some 6)) 6 eq_refl
              "dog" 1 2 5 eq_refl ltac:(lia) ltac:(lia))
    as (y & Hy & _ & _ & Hget).
  exists y. split; [exact Hy |].
  simpl. rewrite !Hget by lia. split; reflexivity.
Defined.

(** C5, as the claim words it, fails for a negative bound: with onset -1
    and offset 3 in 5 frames the slice wraps round to [4:3], which is
    empty, so frames 0, 1 and 2 of the label's column stay 0. *)
Lemma encode_strong_negative_onset :
  let enc := ManyHotEncoder.mk ["cat"] (Some 5) in
  exists y,
    ManyHotEncoder.encode_strong_df enc (one_event "cat" (-1) 3) = Ok y /\
    (fun r => get y r 0) <$> seq 0 5 = [0; 0; 0; 0; 0]%Q /\
    (-1 <= Z.of_nat 0 < 3 /\ get y 0 0 <> 1%Q).
Proof.
  eexists. split; [reflexivity |]. split; [reflexivity |].
  split; [lia | discriminate].
Qed.

(** ** Contiguous regions are the maximal runs *)

Section Regions.

Lemma act_nil (r : nat) : act [] r = false.
Proof. reflexivity. Qed.

Lemma act_head (x : Q) (rest : list Q) : act (x :: rest) 0 = active x.
Proof. reflexivity. Qed.

Lemma act_tail (x : Q) (rest : list Q) (r : nat) :
  act (x :: rest) (S r) = act rest r.
Proof. reflexivity. Qed.

Lemma maximal_run_nil (s e : nat) : ~ maximal_run [] s e.
Proof.
  intros (Hlt & Hin & _). specialize (Hin s ltac:(lia)).
  rewrite act_nil in Hin. discriminate.
Qed.

Lemma leading_run_nil (e : nat) : leading_run [] e <-> e = 0%nat.
Proof.
  split.
  - intros [Hin _]. destruct e as [| e]; [reflexivity |].
    specialize (Hin 0%nat ltac:(lia)). discriminate.
  - intros ->. split; [intros r Hr; lia | reflexivity].
Qed.

Lemma leading_run_inactive (x : Q) (rest : list Q) (e : nat) :
  active x = false -> (leading_run (x :: rest) e <-> e = 0%nat).
Proof.
  intros Hx. split.
  - intros [Hin _]. destruct e as [| e]; [reflexivity |].
    specialize (Hin 0%nat ltac:(lia)). rewrite act_head in Hin. congruence.
  - intros ->. split; [intros r Hr; lia | by rewrite act_head].
Qed.

Lemma leading_run_active (x : Q) (rest : list Q) (e : nat) :
  active x = true ->
  (leading_run (x :: rest) e <-> exists e0, e = S e0 /\ leading_run rest e0).
Proof.
  intros Hx. split.
  - intros [Hin Hout]. destruct e as [| e].
    + rewrite act_head in Hout. congruence.
    + exists e. split; [reflexivity |]. split.
      * intros r Hr. rewrite <- (act_tail x). apply Hin. lia.
      * by rewrite <- (act_tail x).
  - intros (e0 & -> & Hin & Hout). split.
    + intros [| r] Hr; [by rewrite act_head |].
      rewrite act_tail. apply Hin. lia.
    + by rewrite act_tail.
Qed.

Lemma maximal_run_shift (x : Q) (rest : list Q) (s e : nat) :
  maximal_run (x :: rest) (S s) (S e) <->
  maximal_run rest s e /\ (s = 0%nat -> active x = false).
Proof.
  split.
  - intros (Hlt & Hin & Hpre & Hout). split; [split; [lia |]; split; [| split] |].
    + intros r Hr. rewrite <- (act_tail x). apply Hin. lia.
    + intros r Hr. rewrite <- (act_tail x). apply Hpre. lia.
    + by rewrite <- (act_tail x).
    + intros ->. rewrite <- (act_head x rest). by apply Hpre.
  - intros [(Hlt & Hin & Hpre & Hout) Hx]. split; [lia |]. split; [| split].
    + intros [| r] Hr; [lia |]. rewrite act_tail. apply Hin. lia.
    + intros [| r] Hr.
      * rewrite act_head. apply Hx. lia.
      * rewrite act_tail. apply Hpre. lia.
    + by rewrite act_tail.
Qed.

Lemma maximal_run_inactive (x : Q) (rest : list Q) (s e : nat) :
  active x = false ->
  (maximal_run (x :: rest) s e <->
   exists s0 e0, s = S s0 /\ e = S e0 /\ maximal_run rest s0 e0).
Proof.
  intros Hx. split.
  - intros Hrun. pose proof Hrun as (Hlt & Hin & _).
    destruct s as [| s].
    + specialize (Hin 0%nat ltac:(lia)). rewrite act_head in Hin. congruence.
    + destruct e as [| e]; [lia |].
      exists s, e. split; [reflexivity |]. split; [reflexivity |].
      by apply maximal_run_shift in Hrun as [? _].
  - intros (s0 & e0 & -> & -> & Hrun). apply maximal_run_shift. auto.
Qed.

Lemma maximal_run_active (x : Q) (rest : list Q) (s e : nat) :
  active x = true ->
  (maximal_run (x :: rest) s e <->
   (s = 0%nat /\ exists e0, e = S e0 /\ leading_run rest e0) \/
   (exists s0 e0, s = S s0 /\ e = S e0 /\ (0 < s0)%nat /\
                  maximal_run rest s0 e0)).
Proof.
  intros Hx. split.
  - intros Hrun. pose proof Hrun as (Hlt & Hin & Hpre & Hout).
    destruct e as [| e]; [lia |].
    destruct s as [| s].
    + left. split; [reflexivity |]. exists e. split; [reflexivity |]. split.
      * intros r Hr. rewrite <- (act_tail x). apply Hin. lia.
      * by rewrite <- (act_tail x).
    + right. apply maximal_run_shift in Hrun as [Hrun H0].
      exists s, e. split; [reflexivity |]. split; [reflexivity |].
      split; [| exact Hrun].
      destruct s as [| s]; [| lia]. specialize (H0 eq_refl). congruence.
  - intros [(-> & e0 & -> & Hin & Hout) | (s0 & e0 & -> & -> & Hpos & Hrun)].
    + split; [lia |]. split; [| split].
      * intros [| r] Hr; [by rewrite act_head |].
        rewrite act_tail. apply Hin. lia.
      * intros r Hr. lia.
      * by rewrite act_tail.
    + apply maximal_run_shift. split; [exact Hrun | lia].
Qed.

(** What [scan] reports: the run left open by the predecessor frame,
    closed where the leading active frames end, and the maximal runs
    that begin later. *)
Lemma scan_spec (column : list Q) :
  forall (open : option nat) (k s e : nat),
    (s, e) ∈ scan open k column <->
    match open with
    | None =>
        exists s0 e0,
          s = (k + s0)%nat /\ e = (k + e0)%nat /\ maximal_run column s0 e0
    | Some start =>
        (s = start /\ exists e0, e = (k + e0)%nat /\ leading_run column e0) \/
        (exists s0 e0,
            s = (k + s0)%nat /\ e = (k + e0)%nat /\ (0 < s0)%nat /\
            maximal_run column s0 e0)
    end.
Proof.
  induction column as [| x rest IH]; intros open k s e.
  - destruct open as [start |]; simpl.
    + rewrite list_elem_of_singleton. split.
      * intros [= -> ->]. left. split; [reflexivity |].
        exists 0%nat. split; [lia | by apply leading_run_nil].
      * intros [(-> & e0 & -> & He0) | (s0 & e0 & _ & _ & _ & Hrun)].
        -- apply leading_run_nil in He0 as ->. f_equal. lia.
        -- by apply maximal_run_nil in Hrun.
    + split; [intros H; inversion H |].
      intros (s0 & e0 & _ & _ & Hrun). by apply maximal_run_nil in Hrun.
  - simpl. destruct open as [start |]; destruct (active x) eqn:Hx.
    + rewrite (IH (Some start)). split.
      * intros [(-> & e0 & -> & He0) | (s0 & e0 & -> & -> & Hpos & Hrun)].
        -- left. split; [reflexivity |]. exists (S e0). split; [lia |].
           apply leading_run_active; eauto.
        -- right. exists (S s0), (S e0). split; [lia |]. split; [lia |]. split; [lia |].
           apply maximal_run_shift. split; [exact Hrun | lia].
      * intros [(-> & e0 & -> & He0) | (s0 & e0 & -> & -> & Hpos & Hrun)].
        -- apply leading_run_active in He0 as (e1 & -> & He1); [| exact Hx].
           left. split; [reflexivity |]. exists e1. split; [lia | exact He1].
        -- apply maximal_run_active in Hrun
             as [(-> & _) | (s1 & e1 & -> & -> & Hpos1 & Hrun)];
             [lia | | exact Hx].
           right. exists s1, e1. split; [lia |]. split; [lia |]. split; [lia |]. exact Hrun.
    + rewrite elem_of_cons, (IH None). split.
      * intros [[= -> ->] | (s0 & e0 & -> & -> & Hrun)].
        -- left. split; [reflexivity |]. exists 0%nat. split; [lia |].
           by apply leading_run_inactive.
        -- right. exists (S s0), (S e0). split; [lia |]. split; [lia |]. split; [lia |].
           apply maximal_run_shift. auto.
      * intros [(-> & e0 & -> & He0) | (s0 & e0 & -> & -> & Hpos & Hrun)].
        -- apply leading_run_inactive in He0 as ->; [| exact Hx].
           left. f_equal. lia.
        -- apply maximal_run_inactive in Hrun
             as (s1 & e1 & -> & -> & Hrun); [| exact Hx].
           right. exists s1, e1. split; [lia |]. split; [lia |]. exact Hrun.
    + rewrite (IH (Some k)). split.
      * intros [(-> & e0 & -> & He0) | (s0 & e0 & -> & -> & Hpos & Hrun)].
        -- exists 0%nat, (S e0). split; [lia |]. split; [lia |].
           apply maximal_run_active; [exact Hx |]. left. eauto.
        -- exists (S s0), (S e0). split; [lia |]. split; [lia |].
           apply maximal_run_shift. split; [exact Hrun | lia].
      * intros (s0 & e0 & -> & -> & Hrun).
        apply maximal_run_active in Hrun
          as [(-> & e1 & -> & He1) | (s1 & e1 & -> & -> & Hpos1 & Hrun)];
          [| | exact Hx].
        -- left. split; [lia |]. exists e1. split; [lia | exact He1].
        -- right. exists s1, e1. split; [lia |]. split; [lia |]. split; [lia |]. exact Hrun.
    + rewrite (IH None). split.
      * intros (s0 & e0 & -> & -> & Hrun).
        exists (S s0), (S e0). split; [lia |]. split; [lia |].
        apply maximal_run_shift. auto.
      * intros (s0 & e0 & -> & -> & Hrun).
        apply maximal_run_inactive in Hrun
          as (s1 & e1 & -> & -> & Hrun); [| exact Hx].
        exists s1, e1. split; [lia |]. split; [lia |]. exact Hrun.
Qed.

Lemma find_contiguous_regions_spec (column : list Q) (s e : nat) :
  (s, e) ∈ find_contiguous_regions column <-> maximal_run column s e.
Proof.
  unfold find_contiguous_regions. rewrite (scan_spec column None). simpl.
  split; [intros (s0 & e0 & -> & -> & H); exact H | eauto].
Qed.

(** Two maximal runs of one column that share a frame are the same. *)
Lemma maximal_run_meet (column : list Q) (s1 e1 s2 e2 r : nat) :
  maximal_run column s1 e1 -> maximal_run column s2 e2 ->
  (s1 <= r < e1)%nat -> (s2 <= r < e2)%nat ->
  s1 = s2 /\ e1 = e2.
Proof.
  intros (Hlt1 & Hin1 & Hpre1 & Hout1) (Hlt2 & Hin2 & Hpre2 & Hout2) Hr1 Hr2.
  assert (Hs : s1 = s2).
  { destruct (Nat.lt_trichotomy s1 s2) as [Hlt | [Heq | Hgt]]; [| exact Heq |].
    - destruct s2 as [| p]; [lia |].
      specialize (Hpre2 p eq_refl). rewrite Hin1 in Hpre2 by lia. discriminate.
    - destruct s1 as [| p]; [lia |].
      specialize (Hpre1 p eq_refl). rewrite Hin2 in Hpre1 by lia. discriminate. }
  split; [exact Hs |]. subst s2.
  destruct (Nat.lt_trichotomy e1 e2) as [Hlt | [Heq | Hgt]]; [| exact Heq |].
  - rewrite Hin2 in Hout1 by lia. discriminate.
  - rewrite Hin1 in Hout2 by lia. discriminate.
Qed.

(** Two maximal runs of one column are the same or lie apart. *)
Lemma maximal_run_apart (column : list Q) (s1 e1 s2 e2 : nat) :
  maximal_run column s1 e1 -> maximal_run column s2 e2 ->
  (s1 = s2 /\ e1 = e2) \/ (e1 < s2)%nat \/ (e2 < s1)%nat.
Proof.
  intros H1 H2.
  pose proof H1 as (Hlt1 & Hin1 & Hpre1 & Hout1).
  pose proof H2 as (Hlt2 & Hin2 & Hpre2 & Hout2).
  destruct (Nat.lt_trichotomy s1 s2) as [Hlt | [Heq | Hgt]].
  - right. left. destruct (Nat.lt_ge_cases e1 s2) as [? | Hge]; [assumption |].
    destruct s2 as [| p]; [lia |].
    specialize (Hpre2 p eq_refl). rewrite Hin1 in Hpre2 by lia. discriminate.
  - left. apply (maximal_run_meet column s1 e1 s2 e2 s1); try assumption; lia.
  - right. right. destruct (Nat.lt_ge_cases e2 s1) as [? | Hge]; [assumption |].
    destruct s1 as [| p]; [lia |].
    specialize (Hpre1 p eq_refl). rewrite Hin2 in Hpre1 by lia. discriminate.
Qed.

Lemma maximal_run_within (column : list Q) (s e : nat) :
  maximal_run column s e -> (e <= length column)%nat.
Proof.
  intros (Hlt & Hin & _). destruct e as [| e]; [lia |].
  specialize (Hin e ltac:(lia)). unfold act in Hin.
  destruct (column !! e) eqn:E; [| discriminate].
  apply lookup_lt_Some in E. lia.
Qed.

End Regions.

(** ** Strong labels: decoding, and the round trip *)

Section RoundTrip.

Variable self : ManyHotEncoder.t.

Local Abbreviation labels := (ManyHotEncoder.labels self).

Lemma decode_regions_spec (i : nat) (l : string) (regions : list (nat * nat)) :
  labels !! i = Some l ->
  forall acc,
    ManyHotEncoder.decode_regions self i regions acc =
    Ok ((acc ++ ((fun row => (l, row.1, row.2)) <$> regions))%list).
Proof.
  intros Hl. induction regions as [| row rest IH]; intros acc; simpl.
  - by rewrite app_nil_r.
  - fold labels. rewrite Hl, IH, <- app_assoc. reflexivity.
Qed.

Lemma decode_columns_spec (cols : list (list Q)) :
  forall (i : nat) (acc : list event),
    (i + length cols <= length labels)%nat ->
    exists out,
      ManyHotEncoder.decode_columns self i cols acc = Ok out /\
      forall l s e,
        (l, s, e) ∈ out <->
        (l, s, e) ∈ acc \/
        exists j column,
          cols !! j = Some column /\ labels !! (i + j)%nat = Some l /\
          maximal_run column s e.
Proof.
  induction cols as [| column rest IH]; intros i acc Hlen; simpl in *.
  - exists acc. split; [reflexivity |]. intros l s e. split; [auto |].
    intros [H | (j & c & Hj & _)]; [exact H | discriminate].
  - destruct (lookup_lt_is_Some_2 labels i) as [li Hli]; [lia |].
    rewrite (decode_regions_spec i li _ Hli). cbn [bind].
    destruct (IH (S i)
                (acc ++ ((fun row => (li, row.1, row.2))
                           <$> find_contiguous_regions column))%list)
      as (out & Hout & Hmem); [lia |].
    exists out. split; [exact Hout |]. intros l s e.
    rewrite Hmem, elem_of_app, list_elem_of_fmap. split.
    + intros [[H | ([s0 e0] & [= -> -> ->] & Hreg)] | (j & c & Hj & Hl & Hrun)].
      * by left.
      * right. exists 0%nat, column. split; [reflexivity |].
        rewrite Nat.add_0_r. split; [exact Hli |].
        by apply find_contiguous_regions_spec.
      * right. exists (S j), c. split; [exact Hj |].
        rewrite <- Nat.add_succ_comm. auto.
    + intros [H | (j & c & Hj & Hl & Hrun)]; [by left; left |].
      destruct j as [| j]; simpl in Hj.
      * injection Hj as ->. rewrite Nat.add_0_r in Hl.
        left. right. exists (s, e). split.
        -- simpl. congruence.
        -- by apply find_contiguous_regions_spec.
      * right. exists j, c. split; [exact Hj |].
        rewrite Nat.add_succ_comm. auto.
Qed.

Lemma transpose_lookup (y : ndarray) (j : nat) (column : list Q) :
  transpose y !! j = Some column <->
  (j < n_cols y)%nat /\ column = (fun row => nth j row 0%Q) <$> cells y.
Proof.
  unfold transpose. rewrite list_lookup_fmap. split.
  - destruct (seq 0 (n_cols y) !! j) as [j' |] eqn:E; [| discriminate].
    apply lookup_seq in E as [-> Hj]. simpl. intros [= <-]. auto.
  - intros [Hj ->]. rewrite lookup_seq_lt by exact Hj. reflexivity.
Qed.

Lemma act_column (y : ndarray) (j r : nat) :
  act ((fun row => nth j row 0%Q) <$> cells y) r = active (get y r j).
Proof.
  unfold act, get. rewrite list_lookup_fmap, (nth_lookup _ r).
  destruct (cells y !! r) as [row |]; simpl; [reflexivity |].
  by destruct j.
Qed.

(** The events decoded from an array whose columns all have a label:
    one for each maximal run of each column. *)
Lemma decode_strong_spec (y : ndarray) :
  (n_cols y <= length labels)%nat ->
  exists out,
    ManyHotEncoder.decode_strong self y = Ok out /\
    forall l s e,
      (l, s, e) ∈ out <->
      exists j,
        (j < n_cols y)%nat /\ labels !! j = Some l /\
        maximal_run ((fun row => nth j row 0%Q) <$> cells y) s e.
Proof.
  intros Hk. unfold ManyHotEncoder.decode_strong.
  destruct (decode_columns_spec (transpose y) 0 []) as (out & Hout & Hmem).
  { unfold transpose. rewrite length_fmap, length_seq. simpl. exact Hk. }
  exists out. split; [exact Hout |]. intros l s e. rewrite Hmem. split.
  - intros [H | (j & c & Hj & Hl & Hrun)]; [inversion H |].
    apply transpose_lookup in Hj as [Hj ->]. eauto.
  - intros (j & Hj & Hl & Hrun). right.
    exists j, ((fun row => nth j row 0%Q) <$> cells y).
    split; [by apply transpose_lookup | auto].
Qed.

Lemma covers_spec (c r : nat) (l : string) (s e : nat) :
  covers labels c r (l, s, e) = true <->
  index_of l labels = Some c /\ (s <= r < e)%nat.
Proof.
  unfold covers. rewrite !andb_true_iff, bool_decide_eq_true.
  rewrite Nat.leb_le, Nat.ltb_lt. tauto.
Qed.

Lemma covered_spec (events : list event) (r c : nat) :
  covered labels events r c = true <->
  exists l s e,
    (l, s, e) ∈ events /\ index_of l labels = Some c /\ (s <= r < e)%nat.
Proof.
  unfold covered. rewrite existsb_exists. split.
  - intros ([[l s] e] & Hin & Hc). apply covers_spec in Hc.
    exists l, s, e. split; [by apply list_elem_of_In | exact Hc].
  - intros (l & s & e & Hin & Hc). exists (l, s, e).
    split; [by apply list_elem_of_In | by apply covers_spec].
Qed.

(** Encoding a list of events marks exactly the frames they cover. *)
Lemma encode_items_events (events : list event) :
  forall y,
    well_shaped y -> n_cols y = length labels ->
    Forall (placed labels (n_rows y)) events ->
    exists y',
      ManyHotEncoder.encode_items self (ManyHotEncoder.as_items events) y = Ok y' /\
      n_rows y' = n_rows y /\ n_cols y' = n_cols y /\ well_shaped y' /\
      forall r c,
        active (get y' r c) = active (get y r c) || covered labels events r c.
Proof.
  induction events as [| [[l s] e] rest IH]; intros y Hy Hk Hall.
  - exists y. repeat split; try apply Hy.
    intros r c. simpl. by rewrite orb_false_r.
  - apply Forall_cons in Hall as [(Hne & [i Hi] & He) Hall].
    cbn [ManyHotEncoder.as_items fmap list_fmap ManyHotEncoder.encode_items].
    assert (Hstr : is_not_empty_str (SStr l) = true) by (by destruct l).
    rewrite Hstr. unfold index. fold labels. rewrite Hi. cbn [bind int_of].
    assert (Hik : (i < n_cols y)%nat).
    { rewrite Hk. apply index_of_Some in Hi as [Hi _].
      by apply lookup_lt_Some in Hi. }
    set (y1 := assign_slice y (Z.of_nat s) (Z.of_nat e) i).
    assert (Hy1 : well_shaped y1) by (by apply well_shaped_set_rows).
    destruct (IH y1 Hy1 Hk Hall) as (y' & Henc & Hr & Hc & Hy' & Hget).
    exists y'. split; [exact Henc |]. split; [exact Hr |].
    split; [exact Hc |]. split; [exact Hy' |].
    intros r c. rewrite Hget. unfold y1.
    rewrite get_assign_slice by (try assumption; lia).
    cbn [covered existsb]. fold (covered labels rest r c).
    destruct (covers labels c r (l, s, e)) eqn:Hcov.
    + apply covers_spec in Hcov as [Hidx Hrange].
      assert (c = i) as -> by congruence.
      rewrite Nat.eqb_refl.
      destruct (Z.leb_spec (Z.of_nat s) (Z.of_nat r)); [| lia].
      destruct (Z.ltb_spec (Z.of_nat r) (Z.of_nat e)); [| lia].
      destruct (Nat.ltb_spec r (n_rows y)); [| lia].
      simpl. by rewrite orb_true_r.
    + assert (Hoff : (Z.of_nat s <=? Z.of_nat r) && (Z.of_nat r <? Z.of_nat e)
                     && (c =? i)%nat && (r <? n_rows y)%nat = false).
      { apply not_true_is_false. intros Hon.
        rewrite !andb_true_iff in Hon. destruct Hon as [[[H1 H2] H3] _].
        apply Z.leb_le in H1. apply Z.ltb_lt in H2. apply Nat.eqb_eq in H3.
        subst c. assert (covers labels i r (l, s, e) = true); [| congruence].
        apply covers_spec. split; [exact Hi | lia]. }
      rewrite Hoff. simpl. reflexivity.
Qed.

(** With distinct labels in the vocabulary, the decoded events of one
    label come from one column, so they never overlap nor touch. *)
Lemma decode_strong_separated (y : ndarray) (events : list event) :
  (n_cols y <= length labels)%nat -> NoDup labels ->
  ManyHotEncoder.decode_strong self y = Ok events ->
  separated events.
Proof.
  intros Hk Hnd Hdec.
  destruct (decode_strong_spec y Hk) as (out & Hout & Hmem).
  rewrite Hdec in Hout. injection Hout as <-.
  intros l s1 e1 s2 e2 H1 H2.
  apply Hmem in H1 as (j1 & _ & Hl1 & Hrun1).
  apply Hmem in H2 as (j2 & _ & Hl2 & Hrun2).
  assert (j1 = j2) as -> by (eapply NoDup_lookup; eassumption).
  eapply maximal_run_apart; eassumption.
Qed.

Variable n : nat.
Hypothesis Hframes : ManyHotEncoder.n_frames self = Some (Z.of_nat n).

(** C4, as the code has it.  Take a strong label matrix of [n_frames]
    rows with one column per vocabulary label, the empty string not
    being a label of the vocabulary.  [decode_strong] returns its
    events; and when no two of them with the same label overlap or
    touch, encoding these events and decoding the result reproduces
    the same set of event tuples. *)
Theorem strong_round_trip (y : ndarray)
    (Hshape : well_shaped y)
    (Hrows : n_rows y = n)
    (Hcols : n_cols y = length (ManyHotEncoder.labels self))
    (Hempty : "" ∉ ManyHotEncoder.labels self) :
  exists events,
    ManyHotEncoder.decode_strong self y = Ok events /\
    (separated events ->
     exists y' events',
       ManyHotEncoder.encode_strong_df self
         (PList (ManyHotEncoder.as_items events)) = Ok y' /\
       ManyHotEncoder.decode_strong self y' = Ok events' /\
       forall ev, ev ∈ events' <-> ev ∈ events).
Proof.
  fold labels in Hcols, Hempty.
  destruct (decode_strong_spec y) as (events & Hdec & Hmem); [lia |].
  exists events. split; [exact Hdec |]. intros Hsep.
  assert (Hplaced : Forall (placed labels n) events).
  { apply Forall_forall. intros [[l s] e] Hin.
    apply Hmem in Hin as (j & Hj & Hl & Hrun).
    assert (Hl' : l ∈ labels) by (eapply list_elem_of_lookup_2, Hl).
    split; [congruence |]. split.
    - destruct (index_of_elem _ _ Hl') as (c & Hc & _). eauto.
    - apply maximal_run_within in Hrun. rewrite length_fmap in Hrun.
      destruct Hshape as [Hlen _]. lia. }
  destruct (encode_items_events events (np_zeros n (length labels)))
    as (y' & Henc & Hr' & Hc' & Hy' & Hget);
    [apply well_shaped_np_full | reflexivity | exact Hplaced |].
  assert (Hact : forall r c,
             act ((fun row => nth c row 0%Q) <$> cells y') r =
             covered labels events r c).
  { intros r c. rewrite act_column, Hget. unfold np_zeros.
    rewrite get_np_full. by destruct (_ && _). }
  destruct (decode_strong_spec y') as (events' & Hdec' & Hmem');
    [rewrite Hc'; simpl; lia |].
  exists y', events'. split.
  { unfold ManyHotEncoder.encode_strong_df.
    rewrite Hframes. cbn [ManyHotEncoder.strong_sentinel].
    rewrite (zeros_frames self n). cbn [bind]. exact Henc. }
  split; [exact Hdec' |].
  assert (Hrun_of : forall l s e c,
             (l, s, e) ∈ events -> index_of l labels = Some c ->
             maximal_run ((fun row => nth c row 0%Q) <$> cells y') s e).
  { intros l s e c Hin Hc.
    pose proof Hin as Hin0.
    apply Hmem in Hin0 as (j & _ & _ & (Hlt & _)).
    split; [exact Hlt |]. split; [| split].
    - intros r Hr. rewrite Hact. apply covered_spec. exists l, s, e. auto.
    - intros r Hr. rewrite Hact. apply not_true_is_false. intros Hcov.
      apply covered_spec in Hcov as (l2 & s2 & e2 & Hin2 & Hc2 & Hr2).
      apply index_of_Some in Hc as [Hc _]. apply index_of_Some in Hc2 as [Hc2 _].
      assert (l2 = l) as -> by congruence.
      destruct (Hsep l s e s2 e2 Hin Hin2) as [[? ?] | [? | ?]]; lia.
    - rewrite Hact. apply not_true_is_false. intros Hcov.
      apply covered_spec in Hcov as (l2 & s2 & e2 & Hin2 & Hc2 & Hr2).
      apply index_of_Some in Hc as [Hc _]. apply index_of_Some in Hc2 as [Hc2 _].
      assert (l2 = l) as -> by congruence.
      destruct (Hsep l s e s2 e2 Hin Hin2) as [[? ?] | [? | ?]]; lia. }
  intros [[l s] e]. rewrite Hmem'. split.
  - intros (c & Hc & Hl & Hrun).
    pose proof Hrun as (Hlt & Hin & _).
    specialize (Hin s ltac:(lia)). rewrite Hact in Hin.
    apply covered_spec in Hin as (l2 & s2 & e2 & Hin2 & Hc2 & Hr2).
    assert (l2 = l) as ->.
    { apply index_of_Some in Hc2 as [Hc2 _]. congruence. }
    pose proof (Hrun_of l s2 e2 c Hin2 Hc2) as Hrun2.
    destruct (maximal_run_meet _ s e s2 e2 s Hrun Hrun2) as [-> ->];
      [lia | lia |]. exact Hin2.
  - intros Hin. pose proof Hin as Hin0.
    apply Hmem in Hin0 as (j & _ & Hl & _).
    assert (Hl' : l ∈ labels) by (eapply list_elem_of_lookup_2, Hl).
    destruct (index_of_elem _ _ Hl') as (c & Hc & Hlt).
    exists c. split; [rewrite Hc'; simpl; exact Hlt |]. split.
    + by apply index_of_Some in Hc as [Hc _].
    + by apply (Hrun_of l s e c).
Qed.

End RoundTrip.

Lemma strong_round_trip_witness :
  let enc := ManyHotEncoder.mk ["cat"; "dog"] (Some 4) in
  let y := mk_array 4 2 [[1; 0]; [1; 1]; [0; 1]; [1; 0]]%Q in
  ManyHotEncoder.n_frames enc = Some (Z.of_nat 4) /\
  well_shaped y /\ n_rows y = 4%nat /\
  n_cols y = length (ManyHotEncoder.labels enc) /\
  ("" ∉ ManyHotEncoder.labels enc) /\
  exists events y' events',
    ManyHotEncoder.decode_strong enc y = Ok events /\
    ManyHotEncoder.encode_strong_df enc
      (PList (ManyHotEncoder.as_items events)) = Ok y' /\
    ManyHotEncoder.decode_strong enc y' = Ok events' /\
    forall ev, ev ∈ events' <-> ev ∈ events.
Proof.
  cbv zeta.
  assert (Hshape : well_shaped (mk_array 4 2 [[1; 0]; [1; 1]; [0; 1]; [1; 0]]%Q)).
  { split; [reflexivity | repeat constructor]. }
  assert (Hempty : "" ∉ ["cat"; "dog"]).
  { intros H. repeat (apply elem_of_cons in H as [H | H]; [discriminate |]).
    inversion H. }
  split; [reflexivity |]. split; [exact Hshape |]. split; [reflexivity |].
  split; [reflexivity |]. split; [exact Hempty |].
  destruct (strong_round_trip (ManyHotEncoder.mk ["cat"; "dog"] (Some 4)) 4
              eq_refl (mk_array 4 2 [[1; 0]; [1; 1]; [0; 1]; [1; 0]]%Q)
              Hshape eq_refl eq_refl Hempty) as (events & Hdec & Hround).
  destruct Hround as (y' & events' & Henc & Hdec' & Hsame).
  { eapply (decode_strong_separated (ManyHotEncoder.mk ["cat"; "dog"] (Some 4)));
      [| | exact Hdec].
    - simpl. lia.
    - simpl. repeat (apply NoDup_cons; split;
                     [intros H; repeat (apply elem_of_cons in H as [H | H];
                                        [discriminate |]); inversion H |]).
      apply NoDup_nil_2. }
  exists events, y', events'. auto.
Defined.

(** C4, as the claim words it, fails when the empty string is a label of
    the vocabulary: the encoder skips the events that carry it, so the
    run of its column is lost on the way back. *)
Lemma strong_round_trip_loses_empty_label :
  let enc := ManyHotEncoder.mk [""] (Some 1) in
  let y := mk_array 1 1 [[1%Q]] in
  ManyHotEncoder.decode_strong enc y = Ok [("", 0, 1)%nat] /\
  separated [("", 0, 1)%nat] /\
  ManyHotEncoder.encode_strong_df enc
    (PList (ManyHotEncoder.as_items [("", 0, 1)%nat])) = Ok (np_zeros 1 1) /\
  ManyHotEncoder.decode_strong enc (np_zeros 1 1) = Ok [] /\
  ~ (forall ev : event, ev ∈ [] <-> ev ∈ [("", 0, 1)%nat]).
Proof.
  cbv zeta. split; [reflexivity |]. split.
  { intros l s1 e1 s2 e2 H1 H2.
    apply list_elem_of_singleton in H1. apply list_elem_of_singleton in H2.
    left. split; congruence. }
  split; [reflexivity |]. split; [reflexivity |].
  intros H. specialize (H ("", 0, 1)%nat).
  assert (Hin : ("", 0%nat, 1%nat) ∈ [("", 0%nat, 1%nat)]) by apply list_elem_of_here.
  apply H in Hin. inversion Hin.
Qed.

(** * Further properties *)

(** ** Running statistics over several updates *)

Section MeterSequences.

Lemma meter_updates_positive (obs : list (Q * Z)) :
  forall self,
    0 <= AverageMeter.count self ->
    Forall (fun p => 0 < p.2) obs ->
    (meter_updates self obs).2 = Returned /\
    AverageMeter.count (meter_updates self obs).1 =
      AverageMeter.count self + total_weight obs /\
    (AverageMeter.sum (meter_updates self obs).1 ==
       AverageMeter.sum self + weighted_sum obs)%Q /\
    (obs <> [] ->
     AverageMeter.avg (meter_updates self obs).1 =
       (AverageMeter.sum (meter_updates self obs).1 /
        inject_Z (AverageMeter.count (meter_updates self obs).1))%Q /\
     exists v n, last obs = Some (v, n) /\
                 AverageMeter.val (meter_updates self obs).1 = v).
Proof.
  induction obs as [| [v n] rest IH]; intros self Hc Hpos.
  - simpl. split; [reflexivity |]. split; [lia |].
    split; [by rewrite Qplus_0_r | congruence].
  - apply Forall_cons in Hpos as [Hn Hrest]. simpl in Hn.
    destruct (AverageMeter_update_positive self v n) as (Ho & Hval & Hcount & Hsum & Havg & _);
      [lia |].
    cbn [meter_updates weighted_sum total_weight].
    destruct (AverageMeter.update self v n) as [m1 o] eqn:E. simpl in *. subst o.
    destruct (IH m1) as (IH1 & IH2 & IH3 & IH4); [lia | exact Hrest |].
    split; [exact IH1 |]. split; [lia |]. split.
    + rewrite IH3, Hsum. ring.
    + intros _. destruct rest as [| p rest'].
      * simpl. split; [exact Havg | eauto].
      * destruct IH4 as [IHavg (v' & n' & Hlast & Hv)]; [congruence |].
        split; [exact IHavg |]. exists v', n'. split; [| exact Hv].
        rewrite <- Hlast. reflexivity.
Qed.

(** X1.  Starting from a fresh meter, any non-empty series of updates
    with positive weights returns every time, and leaves [count] equal
    to the total weight, [sum] to the weighted sum, [avg] to their
    quotient (the weighted mean) and [val] to the last value. *)
Theorem AverageMeter_weighted_mean (obs : list (Q * Z))
    (Hne : obs <> [])
    (Hpos : Forall (fun p => 0 < p.2) obs) :
  exists m,
    meter_updates AverageMeter.init obs = (m, Returned) /\
    AverageMeter.count m = total_weight obs /\
    0 < AverageMeter.count m /\
    (AverageMeter.sum m == weighted_sum obs)%Q /\
    (AverageMeter.avg m == weighted_sum obs / inject_Z (total_weight obs))%Q /\
    exists v n, last obs = Some (v, n) /\ AverageMeter.val m = v.
Proof.
  destruct (meter_updates_positive obs AverageMeter.init)
    as (Ho & Hcount & Hsum & Hrest); [simpl; lia | exact Hpos |].
  destruct (Hrest Hne) as [Havg Hlast].
  destruct (meter_updates AverageMeter.init obs) as [m o] eqn:E.
  simpl in *. subst o. exists m. split; [reflexivity |].
  assert (Hs : (AverageMeter.sum m == weighted_sum obs)%Q).
  { rewrite Hsum. apply Qplus_0_l. }
  split; [exact Hcount |]. split.
  - rewrite Hcount. destruct obs as [| [v n] rest]; [congruence |].
    apply Forall_cons in Hpos as [Hn Hpos]. simpl in *.
    assert (Hge : forall l : list (Q * Z),
               Forall (fun p => 0 < p.2) l -> 0 <= total_weight l).
    { induction l as [| [v' n'] l IHl]; intros Hl; simpl; [lia |].
      apply Forall_cons in Hl as [H1 H2]. simpl in H1. specialize (IHl H2). lia. }
    specialize (Hge rest Hpos). lia.
  - split; [exact Hs |]. split; [| exact Hlast].
    rewrite Havg, Hs, Hcount. reflexivity.
Qed.

Lemma AverageMeter_weighted_mean_witness :
  [(1, 1); (3, 1); (5, 2)]%Q <> [] /\
  exists m,
    meter_updates AverageMeter.init [(1%Q, 1); (3%Q, 1); (5%Q, 2)] = (m, Returned) /\
    AverageMeter.count m = 4 /\
    (AverageMeter.avg m == 14 / 4)%Q.
Proof.
  split; [discriminate |].
  destruct (AverageMeter_weighted_mean [(1%Q, 1); (3%Q, 1); (5%Q, 2)])
    as (m & Hm & Hc & _ & _ & Havg & _).
  - discriminate.
  - repeat constructor.
  - exists m. split; [exact Hm |]. split; [exact Hc |].
    rewrite Havg. reflexivity.
Defined.

Lemma AverageMeterSet_update_lookup (self : AverageMeterSet.t)
    (name : string) (value : Q) (n : Z) :
  let m0 := default AverageMeter.init (AverageMeterSet.meters self !! name) in
  (AverageMeterSet.update self name value n).2 =
    (AverageMeter.update m0 value n).2 /\
  AverageMeterSet.meters (AverageMeterSet.update self name value n).1 !! name =
    Some (AverageMeter.update m0 value n).1 /\
  forall other,
    other <> name ->
    AverageMeterSet.meters (AverageMeterSet.update self name value n).1 !! other =
    AverageMeterSet.meters self !! other.
Proof.
  unfold AverageMeterSet.update.
  destruct (AverageMeterSet.meters self !! name) as [m |] eqn:E; simpl.
  - rewrite E. destruct (AverageMeter.update m value n) as [m' o]. simpl.
    split; [reflexivity |]. split; [apply lookup_insert_eq |].
    intros other Hne. by rewrite lookup_insert_ne.
  - rewrite lookup_insert_eq.
    destruct (AverageMeter.update AverageMeter.init value n) as [m' o]. simpl.
    split; [reflexivity |]. split; [apply lookup_insert_eq |].
    intros other Hne. by rewrite !lookup_insert_ne.
Qed.

(** X2.  [AverageMeterSet.update] folds the observation into the meter
    of the given name (a fresh meter when the name is new) exactly as
    [AverageMeter.update] does, reports that call's outcome, and leaves
    the meter of every other name as it was. *)
Theorem AverageMeterSet_update_frame (self : AverageMeterSet.t)
    (name : string) (value : Q) (n : Z) :
  let m0 := default AverageMeter.init (AverageMeterSet.meters self !! name) in
  (AverageMeterSet.update self name value n).2 =
    (AverageMeter.update m0 value n).2 /\
  AverageMeterSet.meters (AverageMeterSet.update self name value n).1 !! name =
    Some (AverageMeter.update m0 value n).1 /\
  forall other,
    other <> name ->
    AverageMeterSet.meters (AverageMeterSet.update self name value n).1 !! other =
    AverageMeterSet.meters self !! other.
Proof.
  exact (AverageMeterSet_update_lookup self name value n).
Qed.

(** X3.  When the weight brings the count of the named meter to zero,
    [AverageMeterSet.update] raises [ZeroDivisionError], yet the name is
    bound afterwards: its meter holds the new value and a count of
    zero, and keeps the average it had (zero for a new name). *)
Theorem AverageMeterSet_update_zero_count (self : AverageMeterSet.t)
    (name : string) (value : Q) (n : Z)
    (Hzero : AverageMeter.count
               (default AverageMeter.init (AverageMeterSet.meters self !! name))
             + n = 0) :
  (AverageMeterSet.update self name value n).2 = Raised ZeroDivisionError /\
  exists m,
    AverageMeterSet.meters (AverageMeterSet.update self name value n).1 !! name =
      Some m /\
    AverageMeter.val m = value /\
    AverageMeter.count m = 0 /\
    AverageMeter.avg m =
      AverageMeter.avg
        (default AverageMeter.init (AverageMeterSet.meters self !! name)).
Proof.
  destruct (AverageMeterSet_update_lookup self name value n) as (Ho & Hm & _).
  rewrite Ho, Hm. unfold AverageMeter.update.
  rewrite Hzero. simpl. split; [reflexivity |].
  eexists. split; [reflexivity |]. simpl. auto.
Qed.

Lemma AverageMeterSet_update_zero_count_witness :
  AverageMeter.count
    (default AverageMeter.init
       (AverageMeterSet.meters AverageMeterSet.init !! "loss")) + 0 = 0 /\
  (AverageMeterSet.update AverageMeterSet.init "loss" 7 0).2 =
    Raised ZeroDivisionError /\
  is_Some (AverageMeterSet.meters
             (AverageMeterSet.update AverageMeterSet.init "loss" 7 0).1 !! "loss").
Proof.
  split; [reflexivity |].
  destruct (AverageMeterSet_update_zero_count AverageMeterSet.init "loss" 7 0 eq_refl)
    as (Ho & m & Hm & _).
  split; [exact Ho |]. exists m. exact Hm.
Defined.

(** X4.  [AverageMeterSet.reset] keeps the names and makes every metric
    start afresh: the first update after a reset leaves, under its name,
    the meter that the same update leaves in an empty set. *)
Theorem AverageMeterSet_reset_restarts (self : AverageMeterSet.t)
    (name : string) (value : Q) (n : Z) :
  dom (AverageMeterSet.meters (AverageMeterSet.reset self)) =
    dom (AverageMeterSet.meters self) /\
  (forall m,
      AverageMeterSet.meters (AverageMeterSet.reset self) !! name = Some m ->
      m = AverageMeter.init) /\
  AverageMeterSet.update (AverageMeterSet.reset self) name value n =
    (AverageMeterSet.mk
       (<[name := (AverageMeter.update AverageMeter.init value n).1]>
          (AverageMeterSet.meters (AverageMeterSet.reset self))),
     (AverageMeter.update AverageMeter.init value n).2) /\
  AverageMeterSet.meters
    (AverageMeterSet.update (AverageMeterSet.reset self) name value n).1 !! name =
  AverageMeterSet.meters
    (AverageMeterSet.update AverageMeterSet.init name value n).1 !! name.
Proof.
  assert (Hreset : forall m,
             AverageMeterSet.meters (AverageMeterSet.reset self) !! name = Some m ->
             m = AverageMeter.init).
  { intros m. unfold AverageMeterSet.reset. simpl. rewrite lookup_fmap.
    destruct (AverageMeterSet.meters self !! name); simpl; [| discriminate].
    intros [= <-]. reflexivity. }
  assert (Hupd : AverageMeterSet.update (AverageMeterSet.reset self) name value n =
    (AverageMeterSet.mk
       (<[name := (AverageMeter.update AverageMeter.init value n).1]>
          (AverageMeterSet.meters (AverageMeterSet.reset self))),
     (AverageMeter.update AverageMeter.init value n).2)).
  { unfold AverageMeterSet.update.
    destruct (AverageMeterSet.meters (AverageMeterSet.reset self) !! name)
      as [m |] eqn:E; cbv beta zeta iota.
    - rewrite E. rewrite (Hreset m eq_refl).
      by destruct (AverageMeter.update AverageMeter.init value n).
    - rewrite lookup_insert_eq.
      destruct (AverageMeter.update AverageMeter.init value n). simpl.
      by rewrite insert_insert_eq. }
  split; [apply dom_fmap_L |]. split; [exact Hreset |]. split; [exact Hupd |].
  rewrite Hupd. simpl. rewrite lookup_insert_eq.
  destruct (AverageMeterSet_update_lookup AverageMeterSet.init name value n)
    as (_ & Hm & _).
  rewrite Hm. reflexivity.
Qed.

Lemma string_app_inv_tail (a b p : string) : a ++ p = b ++ p -> a = b.
Proof.
  assert (Happ : forall x y : string,
             list_ascii_of_string (x ++ y) =
             (list_ascii_of_string x ++ list_ascii_of_string y)%list).
  { induction x as [| c x IHx]; intros y; [reflexivity |].
    change (String c x ++ y) with (String c (x ++ y)).
    simpl. by rewrite IHx. }
  intros H. apply (f_equal list_ascii_of_string) in H.
  rewrite !Happ in H. apply app_inv_tail in H.
  apply (f_equal string_of_list_ascii) in H.
  by rewrite !string_of_list_ascii_of_string in H.
Qed.

Lemma view_lookup {A} (f : AverageMeter.t -> A) (self : AverageMeterSet.t)
    (postfix name : string) :
  AverageMeterSet.view f self postfix !! (name ++ postfix) =
  f <$> AverageMeterSet.meters self !! name.
Proof.
  unfold AverageMeterSet.view.
  set (g := fun '(name, meter) => (name ++ postfix, f meter)).
  assert (Hfst : forall l : list (string * AverageMeter.t),
             (g <$> l).*1 = (fun s => s ++ postfix) <$> l.*1).
  { induction l as [| [k m] l IHl]; [reflexivity |].
    rewrite !fmap_cons, IHl. reflexivity. }
  destruct (AverageMeterSet.meters self !! name) as [m |] eqn:E; simpl.
  - apply elem_of_list_to_map_1.
    + rewrite Hfst. apply NoDup_fmap_2.
      * intros a b. apply string_app_inv_tail.
      * apply NoDup_fst_map_to_list.
    + apply list_elem_of_fmap. exists (name, m). split; [reflexivity |].
      by apply elem_of_map_to_list.
  - apply not_elem_of_list_to_map_1. rewrite Hfst.
    intros Hin. apply list_elem_of_fmap in Hin as (k & Hk & Hin).
    apply string_app_inv_tail in Hk as <-.
    apply list_elem_of_fmap in Hin as ([k' m'] & -> & Hin).
    apply elem_of_map_to_list in Hin. simpl in E. congruence.
Qed.

(** X5.  The views [values], [averages], [sums] and [counts] key each
    metric by its name followed by the postfix: under [name + postfix]
    they hold the field of the meter registered under [name], and
    nothing when no meter is registered under it. *)
Theorem AverageMeterSet_views (self : AverageMeterSet.t)
    (postfix name : string) :
  AverageMeterSet.values self postfix !! (name ++ postfix) =
    AverageMeter.val <$> AverageMeterSet.meters self !! name /\
  AverageMeterSet.averages self postfix !! (name ++ postfix) =
    AverageMeter.avg <$> AverageMeterSet.meters self !! name /\
  AverageMeterSet.sums self postfix !! (name ++ postfix) =
    AverageMeter.sum <$> AverageMeterSet.meters self !! name /\
  AverageMeterSet.counts self postfix !! (name ++ postfix) =
    AverageMeter.count <$> AverageMeterSet.meters self !! name.
Proof.
  repeat split; apply view_lookup.
Qed.

End MeterSequences.

(** ** Training callbacks over a whole run *)

Section CallbackRuns.

Lemma Qltb_lt (x y : Q) : Qltb x y = true <-> (x < y)%Q.
Proof.
  unfold Qltb. rewrite negb_true_iff. split.
  - intros H. apply Qnot_le_lt. intros Hle.
    apply Qle_bool_iff in Hle. congruence.
  - intros H. apply not_true_is_false. intros Hle.
    apply Qle_bool_iff in Hle. lra.
Qed.

Lemma Qltb_ge (x y : Q) : Qltb x y = false <-> (y <= x)%Q.
Proof.
  split.
  - intros H. apply Qnot_lt_le. intros Hlt. apply Qltb_lt in Hlt. congruence.
  - intros H. apply not_true_is_false. intros Hlt. apply Qltb_lt in Hlt. lra.
Qed.

Lemma lookup_snoc_inv {A} (l : list A) (x w : A) (j : nat) :
  ((l ++ [x])%list) !! j = Some w ->
  l !! j = Some w /\ (j < length l)%nat \/ j = length l /\ w = x.
Proof.
  intros H. destruct (Nat.lt_ge_cases j (length l)) as [Hlt | Hge].
  - rewrite lookup_app_l in H by exact Hlt. auto.
  - rewrite lookup_app_r in H by exact Hge.
    destruct (j - length l)%nat as [| k] eqn:E; simpl in H; [| discriminate].
    injection H as <-. right. split; [lia | reflexivity].
Qed.

Lemma SaveBest_run_cons (st : SaveBest.t) (v : Q) (vs : list Q) :
  SaveBest.run st (v :: vs) =
  ((SaveBest.apply st v).1 :: (SaveBest.run (SaveBest.apply st v).2 vs).1,
   (SaveBest.run (SaveBest.apply st v).2 vs).2).
Proof.
  cbn [SaveBest.run]. destruct (SaveBest.apply st v) as [d st1].
  cbn [fst snd]. by destruct (SaveBest.run st1 vs).
Qed.

(** One call of [apply] in mode "inf": the invariant is kept, and the
    answer is True exactly on a value below all those seen before. *)
Lemma SaveBest_inf_step (st : SaveBest.t) (hist : list Q) (x : Q) :
  SaveBest_inf_inv st hist ->
  SaveBest_inf_inv (SaveBest.apply st x).2 ((hist ++ [x])%list) /\
  ((SaveBest.apply st x).1 = true <-> forall w, w ∈ hist -> (x < w)%Q).
Proof.
  intros (Hcomp & Hepoch & Hbest). unfold SaveBest.apply. rewrite Hcomp.
  cbn [String.eqb Ascii.eqb Bool.eqb andb orb].
  destruct Hbest as [(-> & Hinf & Hb) | (b & v & Hb & Hv & Hlook & Hmin)].
  - rewrite Hinf. simpl in Hepoch. rewrite Hepoch. simpl. split.
    + split; [reflexivity |]. split; [reflexivity |]. right.
      exists 0%nat, x. repeat split; try reflexivity.
      * destruct j; simpl in H; [| discriminate]. injection H as <-. lra.
      * intros; lia.
    + split; [intros _ w Hw; inversion Hw | reflexivity].
  - rewrite Hv. cbn [lt_best gt_best].
    replace (false && Qltb v x) with false by reflexivity. rewrite orb_false_r.
    destruct (Qltb x v) eqn:Hlt.
    + apply Qltb_lt in Hlt. cbn [fst snd]. split.
      * split; [reflexivity |]. split; [rewrite length_app; simpl; lia |].
        right. exists (length hist), x. rewrite Hepoch.
        split; [reflexivity |]. split; [reflexivity |]. split.
        -- rewrite lookup_app_r by lia. by rewrite Nat.sub_diag.
        -- intros j w Hj. apply lookup_snoc_inv in Hj as [[Hj Hjl] | [-> ->]].
           ++ destruct (Hmin j w Hj) as [Hle _]. split; [lra | intros _; lra].
           ++ split; [lra | lia].
      * split; [| reflexivity]. intros _ w Hw.
        apply list_elem_of_lookup in Hw as [j Hj].
        destruct (Hmin j w Hj) as [Hle _]. lra.
    + apply Qltb_ge in Hlt. cbn [fst snd]. split.
      * split; [exact Hcomp |]. split; [rewrite length_app; simpl; lia |].
        right. exists b, v. split; [exact Hb |]. split; [exact Hv |]. split.
        -- rewrite lookup_app_l; [exact Hlook | by eapply lookup_lt_Some].
        -- intros j w Hj. apply lookup_snoc_inv in Hj as [[Hj Hjl] | [-> ->]].
           ++ apply Hmin, Hj.
           ++ split; [exact Hlt |]. intros Hjb.
              apply lookup_lt_Some in Hlook. lia.
      * assert (Hne : (SaveBest.current_epoch st =? 0) = false).
        { apply Z.eqb_neq. apply lookup_lt_Some in Hlook. lia. }
        rewrite Hne. split; [discriminate |]. intros Hall.
        specialize (Hall v (list_elem_of_lookup_2 _ _ _ Hlook)). lra.
Qed.

Lemma SaveBest_inf_run (vs : list Q) :
  forall st hist,
    SaveBest_inf_inv st hist ->
    SaveBest_inf_inv (SaveBest.run st vs).2 ((hist ++ vs)%list) /\
    length (SaveBest.run st vs).1 = length vs /\
    forall j x,
      vs !! j = Some x ->
      exists d,
        (SaveBest.run st vs).1 !! j = Some d /\
        (d = true <->
         forall i w, (i < length hist + j)%nat ->
                     ((hist ++ vs)%list) !! i = Some w -> (x < w)%Q).
Proof.
  induction vs as [| v vs IH]; intros st hist Hinv.
  - simpl. rewrite app_nil_r. split; [exact Hinv |]. split; [reflexivity |].
    intros j x Hj. discriminate.
  - rewrite SaveBest_run_cons. cbn [fst snd].
    destruct (SaveBest_inf_step st hist v Hinv) as [Hinv1 Hdec].
    destruct (IH _ _ Hinv1) as (Hinv2 & Hlen & Hds).
    rewrite <- app_assoc in Hinv2, Hds. simpl in Hinv2, Hds.
    split; [exact Hinv2 |]. split; [simpl; by rewrite Hlen |].
    intros [| j] x Hj; simpl in Hj.
    + injection Hj as <-. exists (SaveBest.apply st v).1.
      split; [reflexivity |]. rewrite Hdec, Nat.add_0_r. split.
      * intros Hall i w Hi Hw. rewrite lookup_app_l in Hw by exact Hi.
        apply Hall. by eapply list_elem_of_lookup_2.
      * intros Hall w Hw. apply list_elem_of_lookup in Hw as [i Hi].
        apply (Hall i w); [by eapply lookup_lt_Some |].
        rewrite lookup_app_l; [exact Hi | by eapply lookup_lt_Some].
    + destruct (Hds j x Hj) as (d & Hd & Hiff).
      exists d. split; [exact Hd |]. rewrite Hiff.
      rewrite length_app. simpl.
      replace (length hist + 1 + j)%nat with (length hist + S j)%nat by lia.
      reflexivity.
Qed.

Lemma SaveBest_inf_inv_init : SaveBest_inf_inv (SaveBest.mk "inf" Inf 0 0) [].
Proof. split; [reflexivity |]. split; [reflexivity |]. left. auto. Qed.

(** X6.  [SaveBest("inf")] keeps the least value: after [apply] has been
    fed a non-empty series of values, the epoch counter equals their
    number, [best_val] is the least of them, and [best_epoch] is the
    first position at which it occurred. *)
Theorem SaveBest_inf_tracks_minimum (vs : list Q) (Hne : vs <> []) :
  exists sb b v,
    SaveBest.init "inf" = Ok sb /\
    SaveBest.current_epoch (SaveBest.run sb vs).2 = Z.of_nat (length vs) /\
    SaveBest.best_epoch (SaveBest.run sb vs).2 = Z.of_nat b /\
    SaveBest.best_val (SaveBest.run sb vs).2 = Fin v /\
    first_min vs b v.
Proof.
  destruct (SaveBest_inf_run vs _ _ SaveBest_inf_inv_init)
    as ((_ & Hepoch & Hbest) & _).
  simpl in Hepoch, Hbest.
  destruct Hbest as [(-> & _) | (b & v & Hb & Hv & Hmin)]; [congruence |].
  exists (SaveBest.mk "inf" Inf 0 0), b, v. split; [reflexivity |]. auto.
Qed.

Lemma SaveBest_inf_tracks_minimum_witness :
  [4; 2; 7; 2]%Q <> [] /\
  exists sb,
    SaveBest.init "inf" = Ok sb /\
    SaveBest.best_epoch (SaveBest.run sb [4; 2; 7; 2]%Q).2 = 1 /\
    SaveBest.best_val (SaveBest.run sb [4; 2; 7; 2]%Q).2 = Fin 2.
Proof.
  split; [discriminate |].
  destruct (SaveBest_inf_tracks_minimum [4; 2; 7; 2]%Q) as (sb & b & v & Hsb & _);
    [discriminate |].
  exists sb. split; [exact Hsb |].
  injection Hsb as <-. split; reflexivity.
Defined.

(** X7.  [SaveBest("inf")] answers True exactly on a strict new minimum:
    the call on the value at position [j] returns True if and only if
    that value is below every value fed before it (which holds of the
    first call, whatever its value). *)
Theorem SaveBest_inf_decisions (vs : list Q) (j : nat) (x : Q)
    (Hj : vs !! j = Some x) :
  exists sb d,
    SaveBest.init "inf" = Ok sb /\
    (SaveBest.run sb vs).1 !! j = Some d /\
    (d = true <->
     forall i w, (i < j)%nat -> vs !! i = Some w -> (x < w)%Q).
Proof.
  destruct (SaveBest_inf_run vs _ _ SaveBest_inf_inv_init) as (_ & _ & Hds).
  destruct (Hds j x Hj) as (d & Hd & Hiff).
  exists (SaveBest.mk "inf" Inf 0 0), d. split; [reflexivity |].
  split; [exact Hd |]. exact Hiff.
Qed.

Lemma SaveBest_inf_decisions_witness :
  [4; 2; 7; 2]%Q !! 3%nat = Some 2%Q /\
  exists sb,
    SaveBest.init "inf" = Ok sb /\
    (SaveBest.run sb [4; 2; 7; 2]%Q).1 !! 3%nat = Some false.
Proof.
  split; [reflexivity |].
  destruct (SaveBest_inf_decisions [4; 2; 7; 2]%Q 3 2%Q eq_refl)
    as (sb & d & Hsb & Hd & _).
  exists sb. split; [exact Hsb |].
  injection Hsb as <-. reflexivity.
Defined.

(** One call of [apply] in mode "sup" keeps the invariant. *)
Lemma SaveBest_sup_step (st : SaveBest.t) (hist : list Q) (x : Q) :
  SaveBest_sup_inv st hist ->
  SaveBest_sup_inv (SaveBest.apply st x).2 ((hist ++ [x])%list).
Proof.
  intros (Hcomp & Hepoch & Hbest). unfold SaveBest.apply. rewrite Hcomp.
  cbn [String.eqb Ascii.eqb Bool.eqb andb orb].
  assert (Hnew : forall v,
            (v < x)%Q -> (forall w, w ∈ hist -> (w <= v)%Q) ->
            first_max (hist ++ [x]) (length hist) x).
  { intros v Hvx Hall. split.
    - rewrite lookup_app_r by lia. by rewrite Nat.sub_diag.
    - intros j w Hj. apply lookup_snoc_inv in Hj as [[Hj Hjl] | [-> ->]].
      + specialize (Hall w (list_elem_of_lookup_2 _ _ _ Hj)).
        split; [lra | intros _; lra].
      + split; [lra | lia]. }
  destruct Hbest as [(Hv & Hb & Hall) | (b & v & Hb & Hv & Hpos & Hlook & Hmax)].
  - rewrite Hv. cbn [lt_best gt_best].
    destruct (Qltb 0 x) eqn:Hlt; cbn [fst snd].
    + apply Qltb_lt in Hlt.
      split; [reflexivity |]. split; [rewrite length_app; simpl; lia |].
      right. exists (length hist), x. rewrite Hepoch.
      split; [reflexivity |]. split; [reflexivity |]. split; [exact Hlt |].
      apply (Hnew 0%Q Hlt).
      intros w Hw. by apply (proj1 (Forall_forall _ _) Hall).
    + apply Qltb_ge in Hlt.
      split; [exact Hcomp |]. split; [rewrite length_app; simpl; lia |].
      left. split; [exact Hv |]. split; [exact Hb |].
      apply Forall_app. split; [exact Hall |]. by apply Forall_singleton.
  - rewrite Hv. cbn [lt_best gt_best].
    destruct (Qltb v x) eqn:Hlt; cbn [fst snd].
    + apply Qltb_lt in Hlt.
      split; [reflexivity |]. split; [rewrite length_app; simpl; lia |].
      right. exists (length hist), x. rewrite Hepoch.
      split; [reflexivity |]. split; [reflexivity |]. split; [lra |].
      apply (Hnew v Hlt).
      intros w Hw. apply list_elem_of_lookup in Hw as [j Hj].
      by destruct (Hmax j w Hj).
    + apply Qltb_ge in Hlt.
      split; [exact Hcomp |]. split; [rewrite length_app; simpl; lia |].
      right. exists b, v. split; [exact Hb |]. split; [exact Hv |].
      split; [exact Hpos |]. split.
      * rewrite lookup_app_l; [exact Hlook | by eapply lookup_lt_Some].
      * intros j w Hj. apply lookup_snoc_inv in Hj as [[Hj Hjl] | [-> ->]].
        -- apply Hmax, Hj.
        -- split; [exact Hlt |]. intros Hjb.
           apply lookup_lt_Some in Hlook. lia.
Qed.

Lemma SaveBest_sup_run (vs : list Q) :
  forall st hist,
    SaveBest_sup_inv st hist ->
    SaveBest_sup_inv (SaveBest.run st vs).2 ((hist ++ vs)%list).
Proof.
  induction vs as [| v vs IH]; intros st hist Hinv.
  - simpl. by rewrite app_nil_r.
  - rewrite SaveBest_run_cons. cbn [fst snd].
    pose proof (IH _ _ (SaveBest_sup_step st hist v Hinv)) as H.
    by rewrite <- app_assoc in H.
Qed.

(** X8.  [SaveBest("sup")] starts from a best value of 0.  After any
    series of values the epoch counter equals their number, and either
    no value exceeded 0, and then [best_val] is still 0 and
    [best_epoch] still 0; or [best_val] is the greatest value, which
    exceeds 0, and [best_epoch] the first position at which it
    occurred. *)
Theorem SaveBest_sup_tracks_maximum (vs : list Q) :
  exists sb,
    SaveBest.init "sup" = Ok sb /\
    SaveBest.current_epoch (SaveBest.run sb vs).2 = Z.of_nat (length vs) /\
    ((Forall (fun w => (w <= 0)%Q) vs /\
      SaveBest.best_val (SaveBest.run sb vs).2 = Fin 0 /\
      SaveBest.best_epoch (SaveBest.run sb vs).2 = 0) \/
     (exists b v,
         SaveBest.best_epoch (SaveBest.run sb vs).2 = Z.of_nat b /\
         SaveBest.best_val (SaveBest.run sb vs).2 = Fin v /\
         (0 < v)%Q /\
         first_max vs b v)).
Proof.
  exists (SaveBest.mk "sup" (Fin 0) 0 0). split; [reflexivity |].
  assert (Hinit : SaveBest_sup_inv (SaveBest.mk "sup" (Fin 0) 0 0) []).
  { split; [reflexivity |]. split; [reflexivity |]. left. auto. }
  destruct (SaveBest_sup_run vs _ _ Hinit) as (_ & Hepoch & Hbest).
  simpl in Hepoch, Hbest. split; [exact Hepoch |].
  destruct Hbest as [(Hv & Hb & Hall) | Hbest]; [left | right]; auto.
Qed.

Lemma EarlyStopping_run_cons (st : EarlyStopping.t) (v : Q) (vs : list Q) :
  EarlyStopping.run st (v :: vs) =
  ((EarlyStopping.apply st v).1 ::
     (EarlyStopping.run (EarlyStopping.apply st v).2 vs).1,
   (EarlyStopping.run (EarlyStopping.apply st v).2 vs).2).
Proof.
  cbn [EarlyStopping.run]. destruct (EarlyStopping.apply st v) as [d st1].
  cbn [fst snd]. by destruct (EarlyStopping.run st1 vs).
Qed.

Lemma EarlyStopping_improves_inf (st : EarlyStopping.t) (x : Q) :
  EarlyStopping.val_comp st = "inf" ->
  EarlyStopping.improves st x = lt_best x (EarlyStopping.best_val st).
Proof.
  intros Hc. unfold EarlyStopping.improves. rewrite Hc.
  cbn [String.eqb Ascii.eqb Bool.eqb]. by destruct (lt_best _ _).
Qed.

(** A run of values none of which improves on the best, the last of
    them met when the epoch counter first exceeds both the patience and
    the warm-up. *)
Lemma EarlyStopping_waits (v0 : Q) (k : nat) :
  forall rest st,
    EarlyStopping.val_comp st = "inf" ->
    EarlyStopping.best_val st = Fin v0 ->
    EarlyStopping.best_epoch st = 0 ->
    EarlyStopping.current_epoch st + Z.of_nat k =
      Z.max (EarlyStopping.patience st) (EarlyStopping.first_early_wait st) + 1 ->
    length rest = S k ->
    Forall (fun v => (v0 <= v)%Q) rest ->
    (EarlyStopping.run st rest).1 = (replicate k false ++ [true])%list /\
    EarlyStopping.current_epoch (EarlyStopping.run st rest).2 = 0.
Proof.
  induction k as [| k IH]; intros rest st Hc Hv Hb He Hlen Hall;
    destruct rest as [| x rest]; try discriminate;
    apply Forall_cons in Hall as [Hx Hall];
    rewrite EarlyStopping_run_cons; cbn [fst snd];
    pose proof (EarlyStopping_improves_inf st x Hc) as Himp;
    rewrite Hv in Himp; cbn [lt_best] in Himp;
    rewrite (proj2 (Qltb_ge x v0) Hx) in Himp;
    unfold EarlyStopping.apply; rewrite Himp, Hb.
  - destruct rest; [| discriminate].
    destruct (Z.ltb_spec (EarlyStopping.patience st)
                (EarlyStopping.current_epoch st - 0)); [| lia].
    destruct (Z.ltb_spec (EarlyStopping.first_early_wait st)
                (EarlyStopping.current_epoch st)); [| lia].
    split; reflexivity.
  - assert (Hgo : (EarlyStopping.patience st <? EarlyStopping.current_epoch st - 0)
                  && (EarlyStopping.first_early_wait st
                      <? EarlyStopping.current_epoch st) = false).
    { apply andb_false_iff.
      destruct (Z.max_spec (EarlyStopping.patience st)
                  (EarlyStopping.first_early_wait st)) as [[_ Hm] | [_ Hm]].
      - right. apply Z.ltb_ge. lia.
      - left. apply Z.ltb_ge. lia. }
    rewrite Hgo. cbn [fst snd].
    destruct (IH rest
                (EarlyStopping.set_current_epoch st
                   (EarlyStopping.current_epoch st + 1)))
      as [Hds Hfin]; try assumption.
    + simpl. lia.
    + simpl in Hlen. lia.
    + rewrite Hds. split; [reflexivity | exact Hfin].
Qed.

(** X9.  With patience [p >= 0] and warm-up [w >= 0] in mode "inf", a
    first value followed by values that never go below it is answered
    False until the epoch counter exceeds both [p] and [w]: the stop is
    signalled on the call of index [max p w + 1] and on none before
    it, and it leaves the epoch counter at 0. *)
Theorem EarlyStopping_stop_position (p w : Z) (v0 : Q) (rest : list Q)
    (Hp : 0 <= p) (Hw : 0 <= w)
    (Hlen : length rest = (Z.to_nat (Z.max p w) + 1)%nat)
    (Hrest : Forall (fun v => (v0 <= v)%Q) rest) :
  exists es,
    EarlyStopping.init p "inf" w = Ok es /\
    (EarlyStopping.run es (v0 :: rest)).1 =
      (replicate (length rest) false ++ [true])%list /\
    EarlyStopping.current_epoch (EarlyStopping.run es (v0 :: rest)).2 = 0.
Proof.
  exists (EarlyStopping.mk p w "inf" Inf 0 0). split; [reflexivity |].
  rewrite EarlyStopping_run_cons.
  change (EarlyStopping.apply (EarlyStopping.mk p w "inf" Inf 0 0) v0)
    with (false, EarlyStopping.mk p w "inf" (Fin v0) (0 + 1) 0).
  cbn [fst snd].
  destruct (EarlyStopping_waits v0 (Z.to_nat (Z.max p w)) rest
              (EarlyStopping.mk p w "inf" (Fin v0) (0 + 1) 0))
    as [Hds Hfin]; try reflexivity; try assumption.
  - simpl. lia.
  - lia.
  - rewrite Hds, Hlen, Nat.add_1_r. split; [reflexivity | exact Hfin].
Qed.

Lemma EarlyStopping_stop_position_witness :
  0 <= 2 /\ 0 <= 4 /\
  length [6; 5; 9; 5; 5]%Q = (Z.to_nat (Z.max 2 4) + 1)%nat /\
  exists es,
    EarlyStopping.init 2 "inf" 4 = Ok es /\
    (EarlyStopping.run es [5; 6; 5; 9; 5; 5]%Q).1 =
      [false; false; false; false; false; true].
Proof.
  split; [lia |]. split; [lia |]. split; [reflexivity |].
  destruct (EarlyStopping_stop_position 2 4 5%Q [6; 5; 9; 5; 5]%Q)
    as (es & Hes & Hds & _).
  - lia.
  - lia.
  - reflexivity.
  - repeat constructor; discriminate.
  - exists es. split; [exact Hes |]. rewrite Hds. reflexivity.
Defined.

(** Values each below the best so far are all answered False. *)
Lemma EarlyStopping_improving (vs : list Q) :
  forall st,
    EarlyStopping.val_comp st = "inf" ->
    (forall x v, head vs = Some x -> EarlyStopping.best_val st = Fin v ->
                 (x < v)%Q) ->
    (forall i a b, vs !! i = Some a -> vs !! S i = Some b -> (b < a)%Q) ->
    (EarlyStopping.run st vs).1 = replicate (length vs) false /\
    EarlyStopping.current_epoch (EarlyStopping.run st vs).2 =
      EarlyStopping.current_epoch st + Z.of_nat (length vs) /\
    (forall x, last vs = Some x ->
               EarlyStopping.best_val (EarlyStopping.run st vs).2 = Fin x /\
               EarlyStopping.best_epoch (EarlyStopping.run st vs).2 =
                 EarlyStopping.current_epoch st + Z.of_nat (length vs) - 1).
Proof.
  induction vs as [| x vs IH]; intros st Hc Hhead Hdec.
  - simpl. split; [reflexivity |]. split; [lia | discriminate].
  - rewrite EarlyStopping_run_cons. cbn [fst snd].
    assert (Himp : EarlyStopping.improves st x = true).
    { rewrite (EarlyStopping_improves_inf st x Hc).
      destruct (EarlyStopping.best_val st) as [v |] eqn:Hv; [| reflexivity].
      apply Qltb_lt. by apply Hhead. }
    unfold EarlyStopping.apply. rewrite Himp. cbn [fst snd].
    match goal with
    | |- context [EarlyStopping.run ?s vs] => set (st1 := s)
    end.
    destruct (IH st1) as (Hds & Hepoch & Hlast).
    + exact Hc.
    + intros y v Hy [= <-]. apply (Hdec 0%nat x y); [reflexivity |].
      destruct vs; [discriminate | exact Hy].
    + intros i a b Ha Hb. apply (Hdec (S i) a b); assumption.
    + rewrite Hds. split; [reflexivity |]. split.
      * rewrite Hepoch. simpl. lia.
      * intros y Hy. destruct vs as [| z vs'].
        -- simpl in Hy. injection Hy as <-. simpl. split; [reflexivity | lia].
        -- destruct (Hlast y) as [H1 H2]; [exact Hy |].
           split; [exact H1 |]. rewrite H2. simpl. lia.
Qed.

(** X10.  In mode "inf", whatever the patience and the warm-up, a
    series of values each below the one before it is never stopped:
    every call returns False, the epoch counter ends at the number of
    values, and the best value and best epoch are the last value and its
    position. *)
Theorem EarlyStopping_never_stops_improving (p w : Z) (vs : list Q)
    (Hdec : forall i a b, vs !! i = Some a -> vs !! S i = Some b -> (b < a)%Q) :
  exists es,
    EarlyStopping.init p "inf" w = Ok es /\
    (EarlyStopping.run es vs).1 = replicate (length vs) false /\
    EarlyStopping.current_epoch (EarlyStopping.run es vs).2 =
      Z.of_nat (length vs) /\
    forall x, last vs = Some x ->
              EarlyStopping.best_val (EarlyStopping.run es vs).2 = Fin x /\
              EarlyStopping.best_epoch (EarlyStopping.run es vs).2 =
                Z.of_nat (length vs) - 1.
Proof.
  exists (EarlyStopping.mk p w "inf" Inf 0 0). split; [reflexivity |].
  destruct (EarlyStopping_improving vs (EarlyStopping.mk p w "inf" Inf 0 0))
    as (Hds & Hepoch & Hlast); try reflexivity; try assumption.
  - intros x v _ Hv. discriminate Hv.
  - split; [exact Hds |]. split; [exact Hepoch |]. exact Hlast.
Qed.

Lemma EarlyStopping_never_stops_improving_witness :
  exists es,
    EarlyStopping.init 0 "inf" 0 = Ok es /\
    (EarlyStopping.run es [9; 7; 4; 1]%Q).1 = [false; false; false; false].
Proof.
  destruct (EarlyStopping_never_stops_improving 0 0 [9; 7; 4; 1]%Q)
    as (es & Hes & Hds & _).
  - intros [| [| [| [| i]]]] a b Ha Hb; simpl in Ha, Hb;
      try discriminate; injection Ha as <-; injection Hb as <-; reflexivity.
  - exists es. split; [exact Hes |]. rewrite Hds. reflexivity.
Defined.

End CallbackRuns.

(** ** Weak labels: what is encoded, and the way back *)

Section WeakRoundTrip.

Variable self : ManyHotEncoder.t.

Local Abbreviation labels := (ManyHotEncoder.labels self).

Lemma marked_spec (entries : list scalar) (i : nat) :
  marked labels entries i = true <->
  exists s, SStr s ∈ entries /\ index_of s labels = Some i.
Proof.
  unfold marked. rewrite existsb_exists. split.
  - intros (e & Hin & He). destruct e as [| s | |]; try discriminate.
    apply bool_decide_eq_true in He. exists s.
    split; [by apply list_elem_of_In | exact He].
  - intros (s & Hin & Hs). exists (SStr s).
    split; [by apply list_elem_of_In | by apply bool_decide_eq_true].
Qed.

Lemma encode_weak_loop_marks (entries : list scalar) :
  forall y,
    forallb (placeable labels) entries = true ->
    exists y',
      ManyHotEncoder.encode_weak_loop self entries y = Ok y' /\
      forall i,
        y' !! i = if marked labels entries i
                  then (fun _ => 1%Q) <$> y !! i else y !! i.
Proof.
  induction entries as [| e es IH]; intros y Hall.
  - exists y. split; reflexivity.
  - cbn [forallb] in Hall. apply andb_true_iff in Hall as [He Hes].
    destruct e as [| s | |]; try discriminate.
    + destruct (IH y Hes) as (y' & Hy' & Hget). exists y'. auto.
    + apply bool_decide_eq_true in He.
      destruct (index_of_elem _ _ He) as (j & Hj & Hlt).
      destruct (IH (<[j := 1%Q]> y) Hes) as (y' & Hy' & Hget).
      exists y'. split.
      * cbn [ManyHotEncoder.encode_weak_loop isna negb]. unfold index.
        rewrite Hj. exact Hy'.
      * intros i. rewrite Hget. cbn [marked existsb].
        fold (marked labels es i). rewrite Hj.
        destruct (decide (j = i)) as [-> | Hne].
        -- rewrite bool_decide_eq_true_2 by reflexivity. cbn [orb].
           destruct (Nat.lt_ge_cases i (length y)) as [Hi | Hi].
           ++ rewrite list_lookup_insert_eq by exact Hi.
              destruct (lookup_lt_is_Some_2 y i Hi) as [x Hx]. rewrite Hx.
              by destruct (marked labels es i).
           ++ rewrite list_insert_ge by exact Hi.
              rewrite (lookup_ge_None_2 y i Hi).
              by destruct (marked labels es i).
        -- rewrite bool_decide_eq_false_2 by congruence. cbn [orb].
           by rewrite list_lookup_insert_ne.
Qed.

Lemma placeable_of_ok (entries : list scalar) (y y' : list Q) :
  ManyHotEncoder.encode_weak_loop self entries y = Ok y' ->
  forallb (placeable labels) entries = true.
Proof.
  intros Hok. destruct (forallb (placeable labels) entries) eqn:E; [reflexivity |].
  rewrite (encode_weak_loop_unknown self entries y E) in Hok. discriminate.
Qed.

Lemma encode_weak_vector (x : weak_input)
    (Hx : ManyHotEncoder.weak_sentinel x = false)
    (Hall : forallb (placeable (ManyHotEncoder.labels self))
                    (ManyHotEncoder.weak_entries x) = true) :
  exists y,
    ManyHotEncoder.encode_weak self x = Ok y /\
    length y = length (ManyHotEncoder.labels self) /\
    forall i,
      (i < length (ManyHotEncoder.labels self))%nat ->
      ((exists s, SStr s ∈ ManyHotEncoder.weak_entries x /\
                  index_of s (ManyHotEncoder.labels self) = Some i) ->
       y !! i = Some 1%Q) /\
      (~ (exists s, SStr s ∈ ManyHotEncoder.weak_entries x /\
                    index_of s (ManyHotEncoder.labels self) = Some i) ->
       y !! i = Some 0%Q).
Proof.
  unfold ManyHotEncoder.encode_weak. rewrite Hx.
  destruct (encode_weak_loop_marks _ (replicate (length labels) 0%Q) Hall)
    as (y & Hy & Hget).
  destruct (encode_weak_loop_placeable self _
              (replicate (length labels) 0%Q) Hall) as (y2 & Hy2 & Hlen & _).
  rewrite Hy in Hy2. injection Hy2 as <-.
  exists y. split; [exact Hy |]. split; [by rewrite Hlen, length_replicate |].
  intros i Hi. rewrite Hget, lookup_replicate_2 by exact Hi. split.
  - intros Hm. apply marked_spec in Hm. by rewrite Hm.
  - intros Hm. destruct (marked labels _ i) eqn:E; [| reflexivity].
    apply marked_spec in E. contradiction.
Qed.

(** X11.  When every entry handed to [encode_weak] is missing or a label
    of the vocabulary, entry [i] of the returned vector is 1 if [i] is
    the first vocabulary position of some label among the entries, and 0
    otherwise: the vector does not depend on the order of the entries
    nor on their repetitions. *)
Theorem encode_weak_marks (x : weak_input)
    (Hx : ManyHotEncoder.weak_sentinel x = false)
    (Hall : forallb (placeable (ManyHotEncoder.labels self))
                    (ManyHotEncoder.weak_entries x) = true) :
  exists y,
    ManyHotEncoder.encode_weak self x = Ok y /\
    length y = length (ManyHotEncoder.labels self) /\
    forall i,
      (i < length (ManyHotEncoder.labels self))%nat ->
      ((exists s, SStr s ∈ ManyHotEncoder.weak_entries x /\
                  index_of s (ManyHotEncoder.labels self) = Some i) ->
       y !! i = Some 1%Q) /\
      (~ (exists s, SStr s ∈ ManyHotEncoder.weak_entries x /\
                    index_of s (ManyHotEncoder.labels self) = Some i) ->
       y !! i = Some 0%Q).
Proof.
  exact (encode_weak_vector x Hx Hall).
Qed.

Lemma decode_weak_general (v : list Q) :
  forall (i : nat) (acc : list string),
    ManyHotEncoder.decode_weak_loop self i v acc =
    if existsb (fun x => Qeq_bool x 1) (drop (length labels - i) v)
    then Raise IndexError
    else Ok ((acc ++ selected (drop i labels) v)%list).
Proof.
  induction v as [| x xs IH]; intros i acc.
  - rewrite drop_nil. simpl.
    destruct (drop i labels); simpl; by rewrite app_nil_r.
  - cbn [ManyHotEncoder.decode_weak_loop].
    destruct (labels !! i) as [l |] eqn:Hl.
    + apply lookup_lt_Some in Hl as Hlt.
      replace (length labels - i)%nat with (S (length labels - S i))%nat by lia.
      rewrite (drop_S _ _ _ Hl). cbn [drop selected].
      destruct (Qeq_bool x 1).
      * rewrite IH, <- app_assoc. reflexivity.
      * rewrite IH. reflexivity.
    + apply lookup_ge_None in Hl as Hge.
      replace (length labels - i)%nat with 0%nat by lia.
      cbn [drop existsb].
      destruct (Qeq_bool x 1); [reflexivity |].
      rewrite IH. replace (length labels - S i)%nat with 0%nat by lia.
      cbn [drop orb].
      rewrite (drop_ge labels i), (drop_ge labels (S i)) by lia. reflexivity.
Qed.

(** X12.  [decode_weak] reads the vector against the vocabulary position
    by position.  It raises [IndexError] exactly when the vector holds a
    1 at a position beyond the vocabulary; otherwise it returns the
    labels whose entry is 1, in vocabulary order, a vector shorter than
    the vocabulary selecting among its first labels only. *)
Theorem decode_weak_bounds (v : list Q) :
  ManyHotEncoder.decode_weak self v =
  if existsb (fun x => Qeq_bool x 1)
             (drop (length (ManyHotEncoder.labels self)) v)
  then Raise IndexError
  else Ok (selected (ManyHotEncoder.labels self) v).
Proof.
  unfold ManyHotEncoder.decode_weak. rewrite decode_weak_general.
  by rewrite Nat.sub_0_r.
Qed.

Lemma decode_weak_of_length (v : list Q) :
  (length v <= length labels)%nat ->
  ManyHotEncoder.decode_weak self v = Ok (selected labels v).
Proof.
  intros Hlen. unfold ManyHotEncoder.decode_weak.
  rewrite decode_weak_general, Nat.sub_0_r, drop_ge by exact Hlen. reflexivity.
Qed.

Lemma placeable_elem (entries : list scalar) (l : string) :
  forallb (placeable labels) entries = true ->
  SStr l ∈ entries -> l ∈ labels.
Proof.
  intros Hall Hin. apply list_elem_of_In in Hin.
  pose proof (proj1 (forallb_forall _ _) Hall _ Hin) as Hp.
  by apply bool_decide_eq_true in Hp.
Qed.

(** X13.  Decoding what [encode_weak] returned gives back the labels that
    were encoded: when every entry is missing or a label of the
    vocabulary, [decode_weak] of the encoded vector returns, in
    vocabulary order, exactly the labels that occur among the entries. *)
Theorem decode_encode_weak (x : weak_input)
    (Hx : ManyHotEncoder.weak_sentinel x = false)
    (Hall : forallb (placeable (ManyHotEncoder.labels self))
                    (ManyHotEncoder.weak_entries x) = true) :
  exists y out,
    ManyHotEncoder.encode_weak self x = Ok y /\
    ManyHotEncoder.decode_weak self y = Ok out /\
    sublist out (ManyHotEncoder.labels self) /\
    forall l, l ∈ out <-> SStr l ∈ ManyHotEncoder.weak_entries x.
Proof.
  destruct (encode_weak_vector x Hx Hall) as (y & Hy & Hlen & Hget).
  exists y, (selected labels y). split; [exact Hy |].
  split; [apply decode_weak_of_length; lia |].
  split; [apply selected_sublist |].
  intros l. rewrite selected_elem_of. split.
  - intros (i & q & Hl & Hq & Hone).
    apply lookup_lt_Some in Hl as Hi. destruct (Hget i Hi) as [_ H0].
    destruct (marked labels (ManyHotEncoder.weak_entries x) i) eqn:Hm.
    + apply marked_spec in Hm as (s & Hs & Hidx).
      apply index_of_Some in Hidx as [Hidx _].
      assert (s = l) as -> by congruence. exact Hs.
    + rewrite H0 in Hq.
      * injection Hq as <-. discriminate Hone.
      * intros Hex. apply marked_spec in Hex. congruence.
  - intros Hin. pose proof (placeable_elem _ l Hall Hin) as Hl.
    destruct (index_of_elem _ _ Hl) as (i & Hidx & Hi).
    exists i, 1%Q. split; [by apply index_of_Some in Hidx as [? _] |].
    split; [| reflexivity].
    destruct (Hget i Hi) as [H1 _]. apply H1. eauto.
Qed.

Lemma selected_all_off (ls : list string) (n : nat) (c : Q) :
  Qeq_bool c 1 = false -> selected ls (replicate n c) = [].
Proof.
  intros Hc. revert ls. induction n as [| n IH]; intros [| l ls]; simpl;
    try reflexivity.
  rewrite Hc. apply IH.
Qed.

(** X14.  A vector of 0s and 1s with one entry per label survives the
    way through the labels when the vocabulary has no repeated label:
    [decode_weak] returns labels, and [encode_weak] of these labels
    returns the vector itself. *)
Theorem encode_decode_weak (v : list Q)
    (Hnodup : NoDup (ManyHotEncoder.labels self))
    (Hlen : length v = length (ManyHotEncoder.labels self))
    (Hbin : Forall zero_or_one v) :
  exists out,
    ManyHotEncoder.decode_weak self v = Ok out /\
    ManyHotEncoder.encode_weak self (WList (SStr <$> out)) = Ok v.
Proof.
  exists (selected labels v).
  split; [apply decode_weak_of_length; lia |].
  assert (Hin : forall s, SStr s ∈ SStr <$> selected labels v <->
                          s ∈ selected labels v).
  { intros s. rewrite list_elem_of_fmap. split.
    - intros (s' & [= ->] & H). exact H.
    - intros H. eauto. }
  assert (Hall : forallb (placeable labels) (SStr <$> selected labels v) = true).
  { apply forallb_forall. intros e He. apply list_elem_of_In in He.
    apply list_elem_of_fmap in He as (s & -> & Hs).
    apply bool_decide_eq_true.
    apply selected_elem_of in Hs as (i & q & Hl & _).
    by eapply list_elem_of_lookup_2. }
  destruct (encode_weak_vector (WList (SStr <$> selected labels v)) eq_refl Hall)
    as (y & Hy & Hylen & Hget).
  rewrite Hy. f_equal. apply list_eq. intros i.
  destruct (Nat.lt_ge_cases i (length labels)) as [Hi | Hi].
  - destruct (lookup_lt_is_Some_2 v i) as [q Hq]; [lia |].
    destruct (lookup_lt_is_Some_2 labels i Hi) as [l Hl].
    destruct (Hget i Hi) as [H1 H0]. cbn [ManyHotEncoder.weak_entries] in H1, H0.
    pose proof (proj1 (Forall_forall _ _) Hbin q
                  (list_elem_of_lookup_2 _ _ _ Hq)) as [-> | ->].
    + rewrite Hq. apply H0. intros (s & Hs & Hidx).
      apply Hin, selected_elem_of in Hs as (j & q' & Hj & Hq' & Hone).
      apply index_of_Some in Hidx as [Hidx _].
      assert (j = i) as -> by (eapply NoDup_lookup; eassumption).
      rewrite Hq in Hq'. injection Hq' as <-. discriminate Hone.
    + rewrite Hq. apply H1. exists l. split.
      * apply Hin, selected_elem_of. exists i, 1%Q. repeat split; assumption.
      * destruct (index_of_elem labels l) as (j & Hj & _);
          [by eapply list_elem_of_lookup_2 |].
        pose proof Hj as Hj'. apply index_of_Some in Hj' as [Hj' _].
        assert (j = i) as -> by (eapply NoDup_lookup; eassumption).
        exact Hj.
  - rewrite !lookup_ge_None_2 by lia. reflexivity.
Qed.

(** X15.  The vector that [encode_weak] returns for the string "empty"
    has one entry per label, each -1, and [decode_weak] reads no label
    from it. *)
Theorem encode_weak_sentinel_decodes_empty :
  exists y,
    ManyHotEncoder.encode_weak self (WStr "empty") = Ok y /\
    y = replicate (length (ManyHotEncoder.labels self)) (0 - 1)%Q /\
    ManyHotEncoder.decode_weak self y = Ok [].
Proof.
  eexists. split; [reflexivity |]. split; [reflexivity |].
  rewrite decode_weak_of_length by (by rewrite length_replicate).
  by rewrite selected_all_off.
Qed.

End WeakRoundTrip.

Lemma encode_weak_marks_witness :
  let enc := ManyHotEncoder.mk ["cat"; "dog"; "bell"] None in
  let x := WList [SStr "bell"; SNa; SStr "cat"; SStr "bell"] in
  ManyHotEncoder.weak_sentinel x = false /\
  forallb (placeable (ManyHotEncoder.labels enc))
          (ManyHotEncoder.weak_entries x) = true /\
  ManyHotEncoder.encode_weak enc x = Ok [1; 0; 1]%Q.
Proof.
  cbv zeta. split; [reflexivity |]. split; [reflexivity |].
  destruct (encode_weak_marks (ManyHotEncoder.mk ["cat"; "dog"; "bell"] None)
              (WList [SStr "bell"; SNa; SStr "cat"; SStr "bell"])
              eq_refl eq_refl) as (y & Hy & _).
  rewrite Hy. injection Hy as <-. reflexivity.
Defined.

Lemma decode_encode_weak_witness :
  let enc := ManyHotEncoder.mk ["cat"; "dog"; "bell"] None in
  let x := WList [SStr "bell"; SNa; SStr "cat"; SStr "bell"] in
  ManyHotEncoder.weak_sentinel x = false /\
  forallb (placeable (ManyHotEncoder.labels enc))
          (ManyHotEncoder.weak_entries x) = true /\
  exists y,
    ManyHotEncoder.encode_weak enc x = Ok y /\
    ManyHotEncoder.decode_weak enc y = Ok ["cat"; "bell"].
Proof.
  cbv zeta. split; [reflexivity |]. split; [reflexivity |].
  destruct (decode_encode_weak (ManyHotEncoder.mk ["cat"; "dog"; "bell"] None)
              (WList [SStr "bell"; SNa; SStr "cat"; SStr "bell"])
              eq_refl eq_refl) as (y & out & Hy & Hout & _).
  exists y. split; [exact Hy |].
  injection Hy as <-. reflexivity.
Defined.

Lemma encode_decode_weak_witness :
  let enc := ManyHotEncoder.mk ["cat"; "dog"; "bell"] None in
  NoDup (ManyHotEncoder.labels enc) /\
  length [0; 1; 1]%Q = length (ManyHotEncoder.labels enc) /\
  Forall zero_or_one [0; 1; 1]%Q /\
  exists out,
    ManyHotEncoder.decode_weak enc [0; 1; 1]%Q = Ok out /\
    ManyHotEncoder.encode_weak enc (WList (SStr <$> out)) = Ok [0; 1; 1]%Q.
Proof.
  cbv zeta.
  assert (Hnd : NoDup ["cat"; "dog"; "bell"]).
  { repeat (apply NoDup_cons; split;
            [intros H; repeat (apply elem_of_cons in H as [H | H];
                               [discriminate |]); inversion H |]).
    apply NoDup_nil_2. }
  assert (Hbin : Forall zero_or_one [0; 1; 1]%Q).
  { repeat constructor; (by left) || (by right). }
  split; [exact Hnd |]. split; [reflexivity |]. split; [exact Hbin |].
  exact (encode_decode_weak (ManyHotEncoder.mk ["cat"; "dog"; "bell"] None)
           [0; 1; 1]%Q Hnd eq_refl Hbin).
Defined.

(** ** Strong labels: what is encoded, errors, and the weak view *)

Section StrongMore.

Variable self : ManyHotEncoder.t.

Local Abbreviation labels := (ManyHotEncoder.labels self).
Local Abbreviation k := (length (ManyHotEncoder.labels self)).

Lemma get_binary (y : ndarray) (r c : nat) :
  binary y -> zero_or_one (get y r c).
Proof.
  intros [_ H01]. unfold get. rewrite (nth_lookup _ r).
  destruct (cells y !! r) as [row |] eqn:Hr; simpl.
  - pose proof (Forall_lookup_1 _ _ _ _ H01 Hr) as Hrow.
    rewrite nth_lookup. destruct (row !! c) as [q |] eqn:Hc; simpl.
    + exact (Forall_lookup_1 _ _ _ _ Hrow Hc).
    + by left.
  - left. by destruct c.
Qed.

Lemma encode_rows_skips (rs : list event_row) :
  forall y,
    ManyHotEncoder.encode_rows self rs y =
    ManyHotEncoder.encode_rows self
      (filter (fun row => isna (event_label row) = false) rs) y.
Proof.
  induction rs as [| row rest IH]; intros y; [reflexivity |].
  rewrite filter_cons. cbn [ManyHotEncoder.encode_rows].
  destruct (isna (event_label row)) eqn:E.
  - rewrite decide_False by discriminate. cbn [negb]. apply IH.
  - rewrite decide_True by reflexivity.
    cbn [negb ManyHotEncoder.encode_rows]. rewrite E. cbn [negb].
    destruct (index _ _); cbn [bind]; [| reflexivity].
    destruct (int_of (onset row)); cbn [bind]; [| reflexivity].
    destruct (int_of (offset row)); cbn [bind]; [apply IH | reflexivity].
Qed.




(** X17.  In a table handed to [encode_strong_df], the rows whose event
    label is missing are skipped, whatever their onset and offset: the
    call behaves as on the table without these rows. *)
Theorem encode_strong_skips_unlabelled_rows (df : DataFrame) :
  ManyHotEncoder.encode_strong_df self (PDataFrame df) =
  ManyHotEncoder.encode_strong_df self
    (PDataFrame
       (mk_frame (columns df)
                 (filter (fun row => isna (event_label row) = false) (rows df)))).
Proof.
  unfold ManyHotEncoder.encode_strong_df.
  destruct (ManyHotEncoder.n_frames self) as [n |]; [| reflexivity].
  cbn [ManyHotEncoder.strong_sentinel columns rows].
  destruct (ManyHotEncoder.zeros self n); cbn [bind]; [| reflexivity].
  destruct (event_keys_in (columns df)); [| reflexivity].
  apply encode_rows_skips.
Qed.

Variable n : nat.
Hypothesis Hframes : ManyHotEncoder.n_frames self = Some (Z.of_nat n).

(** X18.  A list of events, each with a non-empty label of the
    vocabulary and an end within the frames, is encoded to the union of
    their ranges: entry (r, c) of the matrix is 1 when frame [r] lies
    within an event whose label has [c] as its first vocabulary
    position, and 0 otherwise. *)
Theorem encode_strong_union (events : list event)
    (Hplaced : Forall (placed (ManyHotEncoder.labels self) n) events) :
  exists y,
    ManyHotEncoder.encode_strong_df self
      (PList (ManyHotEncoder.as_items events)) = Ok y /\
    n_rows y = n /\ n_cols y = length (ManyHotEncoder.labels self) /\
    forall r c,
      get y r c =
      if covered (ManyHotEncoder.labels self) events r c then 1%Q else 0%Q.
Proof.
  destruct (encode_items_events self events (np_zeros n k))
    as (y & Henc & Hr & Hc & Hy & Hget);
    [apply well_shaped_np_full | reflexivity | exact Hplaced |].
  exists y. split.
  { unfold ManyHotEncoder.encode_strong_df.
    rewrite Hframes. cbn [ManyHotEncoder.strong_sentinel].
    rewrite (zeros_frames self n). cbn [bind]. exact Henc. }
  split; [exact Hr |]. split; [exact Hc |].
  intros r c.
  destruct (encode_items_shape self _ _ _ Henc (binary_np_zeros n k))
    as (_ & _ & Hbin).
  specialize (Hget r c). unfold np_zeros in Hget. rewrite get_np_full in Hget.
  replace (active (if (r <? n)%nat && (c <? k)%nat then 0%Q else 0%Q))
    with false in Hget by (by destruct (_ && _)).
  cbn [orb] in Hget. rewrite <- Hget.
  by destruct (get_binary y r c Hbin) as [-> | ->].
Qed.

Lemma assign_column_replicate (v : list Q) (i : nat) :
  assign_column (mk_array n k (replicate n v)) i =
  mk_array n k (replicate n (<[i := 1%Q]> v)).
Proof.
  unfold assign_column, set_rows. cbn [n_rows n_cols cells]. f_equal.
  apply list_eq. intros r. rewrite list_lookup_imap.
  destruct (Nat.lt_ge_cases r n) as [Hr | Hr].
  - rewrite !lookup_replicate_2 by exact Hr. simpl.
    destruct (Nat.ltb_spec r n); [reflexivity | lia].
  - rewrite !lookup_ge_None_2 by (by rewrite length_replicate). reflexivity.
Qed.

Lemma bare_labels_lockstep (ls : list string) :
  "" ∉ ls ->
  forall v,
    match ManyHotEncoder.encode_weak_loop self (SStr <$> ls) v with
    | Ok w =>
        ManyHotEncoder.encode_items self (ILabel <$> ls)
          (mk_array n k (replicate n v)) = Ok (mk_array n k (replicate n w))
    | Raise e =>
        ManyHotEncoder.encode_items self (ILabel <$> ls)
          (mk_array n k (replicate n v)) = Raise e
    end.
Proof.
  induction ls as [| s ls IH]; intros Hne v.
  - reflexivity.
  - apply not_elem_of_cons in Hne as [Hs Hne].
    rewrite !fmap_cons.
    cbn [ManyHotEncoder.encode_weak_loop ManyHotEncoder.encode_items isna negb].
    assert (Hstr : is_not_empty_str (SStr s) = true).
    { destruct s; [congruence | reflexivity]. }
    rewrite Hstr.
    destruct (index labels (SStr s)) as [i | e]; cbn [bind]; [| reflexivity].
    rewrite assign_column_replicate. apply IH, Hne.
Qed.

(** X19.  A list of bare label strings, none of them empty, is encoded
    by [encode_strong_df] as the weak encoding of these labels repeated
    on every frame: when [encode_weak] returns a vector, the matrix has
    [n_frames] rows each equal to it, and when [encode_weak] raises
    (an unknown label), [encode_strong_df] raises the same error. *)
Theorem encode_strong_bare_labels (ls : list string)
    (Hne : "" ∉ ls) :
  match ManyHotEncoder.encode_weak self (WList (SStr <$> ls)) with
  | Ok w =>
      ManyHotEncoder.encode_strong_df self (PList (ILabel <$> ls)) =
        Ok (mk_array n (length (ManyHotEncoder.labels self)) (replicate n w))
  | Raise e =>
      ManyHotEncoder.encode_strong_df self (PList (ILabel <$> ls)) = Raise e
  end.
Proof.
  unfold ManyHotEncoder.encode_strong_df, ManyHotEncoder.encode_weak.
  rewrite Hframes.
  cbn [ManyHotEncoder.strong_sentinel ManyHotEncoder.weak_sentinel
       ManyHotEncoder.weak_entries].
  rewrite (zeros_frames self n). cbn [bind].
  exact (bare_labels_lockstep ls Hne (replicate k 0%Q)).
Qed.

Lemma marked_cons (e : scalar) (es : list scalar) (c : nat) :
  marked labels (e :: es) c =
  match e with
  | SStr s => bool_decide (index_of s labels = Some c)
  | _ => false
  end || marked labels es c.
Proof. reflexivity. Qed.

Lemma encode_rows_marked (rs : list event_row) :
  forall y y',
    ManyHotEncoder.encode_rows self rs y = Ok y' ->
    well_shaped y ->
    forallb (placeable labels) (event_label <$> rs) = true /\
    forall r c,
      get y' r c = 1%Q ->
      get y r c = 1%Q \/ marked labels (event_label <$> rs) c = true.
Proof.
  induction rs as [| row rest IH]; intros y y' Henc Hy;
    cbn [ManyHotEncoder.encode_rows] in Henc.
  - injection Henc as <-. split; [reflexivity | auto].
  - rewrite fmap_cons. cbn [forallb].
    destruct (event_label row) as [| s | |] eqn:El; cbn [isna negb] in Henc;
      try discriminate.
    + destruct (IH _ _ Henc Hy) as [Hall Hget]. split; [exact Hall |].
      intros r c Hone. rewrite marked_cons. cbn [orb]. by apply Hget.
    + unfold index in Henc.
      destruct (index_of s labels) as [i |] eqn:Hi; cbn [bind] in Henc;
        [| discriminate].
      destruct (int_of (onset row)) as [o | e]; cbn [bind] in Henc;
        [| discriminate].
      destruct (int_of (offset row)) as [f | e]; cbn [bind] in Henc;
        [| discriminate].
      destruct (IH _ _ Henc) as [Hall Hget];
        [by apply well_shaped_set_rows |].
      split.
      * cbn [placeable]. rewrite Hall, andb_true_r.
        apply bool_decide_eq_true.
        apply index_of_Some in Hi as [Hi _]. by eapply list_elem_of_lookup_2.
      * intros r c Hone. rewrite marked_cons.
        destruct (Hget r c Hone) as [H1 | Hm].
        -- unfold assign_slice in H1. rewrite get_set_rows in H1 by exact Hy.
           destruct (Nat.eqb_spec c i) as [-> | Hne].
           ++ right. rewrite bool_decide_eq_true_2 by exact Hi. reflexivity.
           ++ rewrite !andb_false_r in H1. cbn [andb] in H1. by left.
        -- right. rewrite Hm. apply orb_true_r.
Qed.

Lemma event_keys_has_label (names : list string) :
  event_keys_in names = true ->
  existsb (String.eqb "event_label") names = true.
Proof.
  unfold event_keys_in. cbn [forallb]. rewrite !andb_true_iff. tauto.
Qed.

(** X20.  The strong and the weak encodings of one event table agree:
    when [encode_strong_df] returns a matrix for a table with the onset,
    offset and event_label columns, [encode_weak] returns a vector for
    the same table, and every column in which the matrix holds a 1 has 1
    in the vector. *)
Theorem encode_strong_within_weak (df : DataFrame) (y : ndarray)
    (Hkeys : event_keys_in (columns df) = true)
    (Hy : ManyHotEncoder.encode_strong_df self (PDataFrame df) = Ok y) :
  exists w,
    ManyHotEncoder.encode_weak self (WFrame df) = Ok w /\
    forall r c, get y r c = 1%Q -> w !! c = Some 1%Q.
Proof.
  unfold ManyHotEncoder.encode_strong_df in Hy.
  rewrite Hframes in Hy. cbn [ManyHotEncoder.strong_sentinel] in Hy.
  rewrite (zeros_frames self n) in Hy. cbn [bind] in Hy. rewrite Hkeys in Hy.
  destruct (encode_rows_marked _ _ _ Hy (well_shaped_np_full n k 0%Q))
    as [Hall Hget].
  assert (Hentries : ManyHotEncoder.weak_entries (WFrame df) =
                     event_label <$> rows df).
  { cbn [ManyHotEncoder.weak_entries]. unfold empty, has_column.
    rewrite (event_keys_has_label _ Hkeys).
    destruct (columns df); [discriminate |]. by destruct (rows df). }
  destruct (encode_weak_vector self (WFrame df) eq_refl) as (w & Hw & Hlen & Hmark);
    [by rewrite Hentries |].
  exists w. split; [exact Hw |]. intros r c Hone.
  destruct (Hget r c Hone) as [H0 | Hm].
  - unfold np_zeros in H0. rewrite get_np_full in H0.
    destruct (_ && _); discriminate.
  - apply marked_spec in Hm as (s & Hs & Hidx).
    assert (Hc : (c < k)%nat).
    { apply index_of_Some in Hidx as [Hidx _]. by eapply lookup_lt_Some. }
    destruct (Hmark c Hc) as [H1 _]. apply H1. rewrite Hentries. eauto.
Qed.

End StrongMore.

Lemma encode_strong_union_witness :
  let enc := ManyHotEncoder.mk ["cat"; "dog"] (Some 4) in
  let events := [("dog", 1, 3); ("cat", 0, 4); ("dog", 2, 4)]%nat in
  ManyHotEncoder.n_frames enc = Some (Z.of_nat 4) /\
  Forall (placed (ManyHotEncoder.labels enc) 4) events /\
  exists y,
    ManyHotEncoder.encode_strong_df enc
      (PList (ManyHotEncoder.as_items events)) = Ok y /\
    (fun r => get y r 1) <$> seq 0 4 = [0; 1; 1; 1]%Q.
Proof.
  cbv zeta.
  assert (Hplaced : Forall (placed ["cat"; "dog"] 4)
                           [("dog", 1, 3); ("cat", 0, 4); ("dog", 2, 4)]%nat).
  { repeat constructor; try discriminate; try (eexists; reflexivity); simpl; lia. }
  split; [reflexivity |]. split; [exact Hplaced |].
  destruct (encode_strong_union (ManyHotEncoder.mk ["cat"; "dog"] (Some 4)) 4
              eq_refl _ Hplaced) as (y & Hy & _ & _ & Hget).
  exists y. split; [exact Hy |]. simpl. rewrite !Hget. reflexivity.
Defined.

Lemma encode_strong_bare_labels_witness :
  let enc := ManyHotEncoder.mk ["cat"; "dog"] (Some 3) in
  ManyHotEncoder.n_frames enc = Some (Z.of_nat 3) /\
  ("" ∉ ["dog"]) /\
  ManyHotEncoder.encode_strong_df enc (PList (ILabel <$> ["dog"])) =
    Ok (mk_array 3 2 (replicate 3 [0; 1]%Q)).
Proof.
  cbv zeta.
  assert (Hne : "" ∉ ["dog"]).
  { intros H. apply elem_of_cons in H as [H | H]; [discriminate | inversion H]. }
  split; [reflexivity |]. split; [exact Hne |].
  exact (encode_strong_bare_labels (ManyHotEncoder.mk ["cat"; "dog"] (Some 3)) 3
           eq_refl ["dog"] Hne).
Defined.

Lemma encode_strong_within_weak_witness :
  let enc := ManyHotEncoder.mk ["cat"; "dog"] (Some 3) in
  let df := mk_frame ["filename"; "onset"; "offset"; "event_label"]
                     [mk_row (SStr "dog") (NInt 0) (NInt 2);
                      mk_row SNa NNan NNan] in
  ManyHotEncoder.n_frames enc = Some (Z.of_nat 3) /\
  event_keys_in (columns df) = true /\
  ManyHotEncoder.encode_strong_df enc (PDataFrame df) =
    Ok (mk_array 3 2 [[0; 1]; [0; 1]; [0; 0]]%Q) /\
  exists w, ManyHotEncoder.encode_weak enc (WFrame df) = Ok w /\
            w !! 1%nat = Some 1%Q.
Proof.
  cbv zeta. split; [reflexivity |]. split; [reflexivity |].
  split; [reflexivity |].
  destruct (encode_strong_within_weak
              (ManyHotEncoder.mk ["cat"; "dog"] (Some 3)) 3 eq_refl
              (mk_frame ["filename"; "onset"; "offset"; "event_label"]
                        [mk_row (SStr "dog") (NInt 0) (NInt 2);
                         mk_row SNa NNan NNan])
              (mk_array 3 2 [[0; 1]; [0; 1]; [0; 0]]%Q) eq_refl eq_refl)
    as (w & Hw & Hone).
  exists w. split; [exact Hw |]. apply (Hone 0%nat 1%nat). reflexivity.
Defined.

(** ** Strong labels: the events of each column *)

Section DecodeStrong.

Variable self : ManyHotEncoder.t.

Local Abbreviation labels := (ManyHotEncoder.labels self).
Local Abbreviation k := (length (ManyHotEncoder.labels self)).

Lemma decode_regions_unlabelled (i : nat) (regions : list (nat * nat))
    (acc : list event) :
  labels !! i = None ->
  ManyHotEncoder.decode_regions self i regions acc =
  match regions with
  | [] => Ok acc
  | _ :: _ => Raise IndexError
  end.
Proof.
  intros Hl. destruct regions; cbn [ManyHotEncoder.decode_regions];
    [reflexivity | by rewrite Hl].
Qed.

Lemma decode_columns_general (cols : list (list Q)) :
  forall (i : nat) (acc : list event),
    ManyHotEncoder.decode_columns self i cols acc =
    if existsb (fun column =>
                  match find_contiguous_regions column with
                  | [] => false
                  | _ :: _ => true
                  end) (drop (k - i) cols)
    then Raise IndexError
    else Ok ((acc ++
              concat ((fun '(l, column) =>
                         (fun row => (l, row.1, row.2))
                           <$> find_contiguous_regions column)
                        <$> zip (drop i labels) cols))%list).
Proof.
  induction cols as [| column rest IH]; intros i acc.
  - rewrite drop_nil. cbn [existsb ManyHotEncoder.decode_columns].
    destruct (drop i labels); simpl; by rewrite app_nil_r.
  - cbn [ManyHotEncoder.decode_columns].
    destruct (labels !! i) as [l |] eqn:Hl.
    + apply lookup_lt_Some in Hl as Hlt.
      rewrite (decode_regions_spec self i l _ Hl). cbn [bind].
      replace (k - i)%nat with (S (k - S i))%nat by lia.
      rewrite (drop_S _ _ _ Hl). cbn [drop]. rewrite IH.
      destruct (existsb _ _); [reflexivity |].
      cbn [zip_with fmap list_fmap concat]. by rewrite <- app_assoc.
    + apply lookup_ge_None in Hl as Hge.
      rewrite (decode_regions_unlabelled i _ acc Hl).
      replace (k - i)%nat with 0%nat by lia. cbn [drop existsb].
      destruct (find_contiguous_regions column); cbn [bind orb];
        [| reflexivity].
      rewrite IH. replace (k - S i)%nat with 0%nat by lia. cbn [drop].
      rewrite (drop_ge labels i), (drop_ge labels (S i)) by lia. reflexivity.
Qed.

(** X21.  [decode_strong] reports, column after column and in the order
    of the regions of each column, one event per region, labelled by
    the vocabulary label at the column's position.  It raises
    [IndexError] exactly when a column beyond the vocabulary has a
    region; columns without regions are passed over even there. *)
Theorem decode_strong_events (y : ndarray) :
  ManyHotEncoder.decode_strong self y =
  if existsb (fun column =>
                match find_contiguous_regions column with
                | [] => false
                | _ :: _ => true
                end)
             (drop (length (ManyHotEncoder.labels self)) (transpose y))
  then Raise IndexError
  else Ok (concat ((fun '(l, column) =>
                      (fun row => (l, row.1, row.2))
                        <$> find_contiguous_regions column)
                     <$> zip (ManyHotEncoder.labels self) (transpose y))).
Proof.
  unfold ManyHotEncoder.decode_strong. rewrite decode_columns_general.
  by rewrite Nat.sub_0_r.
Qed.

End DecodeStrong.

(** ** Moving objects to the GPU *)

Section ToCudaFacts.

Variable T : Type.
Variable cuda : T -> T.

Lemma cuda_loop_spec (args : list T) :
  forall pre,
    cuda_loop T cuda (length pre) args ((pre ++ args)%list) =
    (pre ++ (cuda <$> args))%list.
Proof.
  induction args as [| a rest IH]; intros pre; [reflexivity |].
  cbn [cuda_loop].
  replace (<[length pre := cuda a]> ((pre ++ a :: rest)%list))
    with (((pre ++ [cuda a]) ++ rest)%list).
  - replace (S (length pre)) with (length (pre ++ [cuda a])%list)
      by (rewrite length_app; simpl; lia).
    rewrite IH, <- app_assoc. reflexivity.
  - rewrite <- app_assoc, insert_app_r_alt by lia.
    by rewrite Nat.sub_diag.
Qed.

(** X22.  [to_cuda_if_available] moves every argument when a GPU is
    available and none otherwise, keeping their order; called with
    exactly one argument it returns that object alone, and in every
    other case (no argument included) the list of the objects. *)
Theorem to_cuda_if_available_spec (is_available : bool) (args : list T) :
  to_cuda_if_available T cuda is_available args =
  let moved := if is_available then cuda <$> args else args in
  match moved with
  | [x] => inl x
  | _ => inr moved
  end.
Proof.
  unfold to_cuda_if_available. destruct is_available; [| reflexivity].
  cbv zeta. pose proof (cuda_loop_spec args []) as H. simpl in H.
  by rewrite H.
Qed.

End ToCudaFacts.

(** ** Strong labels: fractional and missing bounds; strings as input *)

Section Bounds.

Variable self : ManyHotEncoder.t.

Local Abbreviation labels := (ManyHotEncoder.labels self).
Local Abbreviation k := (length (ManyHotEncoder.labels self)).


(** X23.  A one-character-free vocabulary refuses a bare string: handed
    a non-empty string other than "empty", [encode_weak] iterates over
    its characters, and raises [ValueError] as soon as the vocabulary
    has no label made of the first character alone. *)
Theorem encode_weak_bare_string (c : ascii) (s : string)
    (Hs : String c s <> "empty")
    (Hc : String c "" ∉ ManyHotEncoder.labels self) :
  ManyHotEncoder.encode_weak self (WStr (String c s)) = Raise ValueError.
Proof.
  unfold ManyHotEncoder.encode_weak.
  assert (Hsent : ManyHotEncoder.weak_sentinel (WStr (String c s)) = false).
  { cbn [ManyHotEncoder.weak_sentinel]. by apply String.eqb_neq. }
  rewrite Hsent. apply encode_weak_loop_unknown.
  cbn [ManyHotEncoder.weak_entries list_ascii_of_string].
  rewrite fmap_cons. cbn [forallb placeable].
  by rewrite bool_decide_eq_false_2.
Qed.

Variable n : nat.
Hypothesis Hframes : ManyHotEncoder.n_frames self = Some (Z.of_nat n).


Lemma int_of_float_nonneg (q : Q) :
  (0 <= q)%Q -> int_of (NFloat q) = Ok (Qfloor q) /\ 0 <= Qfloor q.
Proof.
  intros Hq. destruct q as [a d]. cbn [int_of Qnum Qden Qfloor].
  assert (Ha : 0 <= a).
  { unfold Qle in Hq. simpl in Hq. lia. }
  split.
  - f_equal. apply Z.quot_div_nonneg; lia.
  - apply Z.div_pos; lia.
Qed.

(** X25.  Fractional bounds are truncated: a table holding one event
    whose label is in the vocabulary, with onset [o >= 0] and offset
    [f >= 0] given as floats, is encoded to a matrix in which the frames
    from the integer part of [o] up to, but not including, the integer
    part of [f] are 1 in the label's column, every other entry being
    0. *)
Theorem encode_strong_truncates (l : string) (i : nat) (o f : Q)
    (Hi : index_of l (ManyHotEncoder.labels self) = Some i)
    (Ho : (0 <= o)%Q) (Hf : (0 <= f)%Q) :
  exists y,
    ManyHotEncoder.encode_strong_df self
      (PDataFrame (mk_frame ["onset"; "offset"; "event_label"]
                            [mk_row (SStr l) (NFloat o) (NFloat f)])) = Ok y /\
    n_rows y = n /\ n_cols y = length (ManyHotEncoder.labels self) /\
    forall r c,
      (r < n)%nat ->
      get y r c =
      if (c =? i)%nat && (Qfloor o <=? Z.of_nat r) && (Z.of_nat r <? Qfloor f)
      then 1%Q else 0%Q.
Proof.
  destruct (int_of_float_nonneg o Ho) as [Hio Hopos].
  destruct (int_of_float_nonneg f Hf) as [Hif Hfpos].
  unfold ManyHotEncoder.encode_strong_df.
  rewrite Hframes. cbn [ManyHotEncoder.strong_sentinel].
  rewrite (zeros_frames self n). cbn [bind columns rows].
  replace (event_keys_in ["onset"; "offset"; "event_label"]) with true
    by reflexivity.
  cbn [ManyHotEncoder.encode_rows event_label onset offset isna negb].
  unfold index. rewrite Hi. cbn [bind]. rewrite Hio, Hif. cbn [bind].
  eexists. split; [reflexivity |]. split; [reflexivity |].
  split; [reflexivity |].
  intros r c Hr.
  assert (Hik : (i < k)%nat).
  { apply index_of_Some in Hi as [Hi _]. by apply lookup_lt_Some in Hi. }
  rewrite get_assign_slice; try assumption; [| apply well_shaped_np_full].
  unfold np_zeros. rewrite get_np_full. cbn [n_rows np_full].
  destruct (Nat.ltb_spec r n); [| lia]. rewrite andb_true_r.
  destruct (Nat.eqb_spec c i); cbn [andb].
  - rewrite andb_true_r.
    destruct (_ && _); [reflexivity |]. by destruct (_ <? _)%nat.
  - rewrite andb_false_r. by destruct (_ <? _)%nat.
Qed.

End Bounds.

Lemma encode_weak_bare_string_witness :
  let enc := ManyHotEncoder.mk ["cat"; "dog"] None in
  "cat" <> "empty" /\
  ("c" ∉ ManyHotEncoder.labels enc) /\
  ManyHotEncoder.encode_weak enc (WStr "cat") = Raise ValueError.
Proof.
  cbv zeta.
  assert (Hc : "c" ∉ ["cat"; "dog"]).
  { intros H. repeat (apply elem_of_cons in H as [H | H]; [discriminate |]).
    inversion H. }
  split; [discriminate |]. split; [exact Hc |].
  apply (encode_weak_bare_string (ManyHotEncoder.mk ["cat"; "dog"] None)
           "c"%char "at"); [discriminate | exact Hc].
Defined.


Lemma encode_strong_truncates_witness :
  let enc := ManyHotEncoder.mk ["cat"; "dog"] (Some 6) in
  ManyHotEncoder.n_frames enc = Some (Z.of_nat 6) /\
  index_of "dog" (ManyHotEncoder.labels enc) = Some 1%nat /\
  (0 <= 2.7)%Q /\ (0 <= 5.2)%Q /\
  exists y,
    ManyHotEncoder.encode_strong_df enc
      (PDataFrame (mk_frame ["onset"; "offset"; "event_label"]
                            [mk_row (SStr "dog") (NFloat 2.7) (NFloat 5.2)]))
      = Ok y /\
    (fun r => get y r 1) <$> seq 0 6 = [0; 0; 1; 1; 1; 0]%Q.
Proof.
  cbv zeta. split; [reflexivity |]. split; [reflexivity |].
  split; [discriminate |]. split; [discriminate |].
  destruct (encode_strong_truncates (ManyHotEncoder.mk ["cat"; "dog"] (Some 6)) 6
              eq_refl "dog" 1 2.7%Q 5.2%Q eq_refl)
    as (y & Hy & _ & _ & Hget); [discriminate | discriminate |].
  exists y. split; [exact Hy |]. simpl. rewrite !Hget by lia. reflexivity.
Defined.
